(** * Retrieval core of the concert-tour RAG service

    A shallow embedding of [src/app/rag_system.py] (class [RAGSystem]):
    ingestion ([add_document]), persistence ([_save], [__init__]),
    nearest-neighbour search ([search]) and the metadata look-ups
    ([get_document_by_id], [get_all_documents], [get_document_chunks]).

    Numbers are exact rationals ([Q]), and the float32 evaluation of the
    score is modelled apart ([Float32]); an exception is a [Raise] result.
    The collaborators the class only calls (the text splitter, the sentence
    embedder, [faiss.normalize_L2], [uuid.uuid4], [datetime.now]) are the
    fields of the class [Collaborators]. *)

From Stdlib Require Import QArith Qabs Lia Sorted Permutation Ascii String SpecFloat.
From stdpp Require Import base option list strings relations sorting pretty gmap.

Local Open Scope Q_scope.
Local Open Scope string_scope.
Local Open Scope list_scope.
Local Open Scope nat_scope.

(** ** Data model *)

(** An embedding: one row of the numpy matrix. *)
Definition vec : Type := list Q.

(** The dict appended to [self.metadata["chunks"]]. *)
Module Chunk.
Record t : Type := Build
  { text : string;
    document_id : string;
    chunk_id : nat;
    position : nat }.
End Chunk.

(** The dict appended to [self.metadata["documents"]]. *)
Module Document.
Record t : Type := Build
  { id : string;
    summary : string;
    timestamp : string;
    chunk_ids : list nat }.
End Document.

(** [self.metadata]: a dict with the two keys "chunks" and "documents". *)
Record Metadata : Type := mkMetadata
  { chunks : list Chunk.t;
    documents : list Document.t }.

(** One entry of the list [search] returns. *)
Module Hit.
Record t : Type := Build
  { text : string;
    document_id : string;
    score : Q }.
End Hit.

(** Exceptions that can leave the engine. *)
Inductive exn : Type :=
  | EmbedderError
  | AssertionError
  | IndexError
  | FileNotFoundError.

Inductive result (A : Type) : Type :=
  | Ok (a : A)
  | Raise (e : exn).
Arguments Ok {A} a.
Arguments Raise {A} e.

Definition bind {A B : Type} (r : result A) (k : A -> result B) : result B :=
  match r with
  | Ok a => k a
  | Raise e => Raise e
  end.

(** ** The flat vector index *)

(** Modelled from the spec: [faiss.IndexFlatL2] is a third-party class whose
    code is not part of the repository; section 4.3 of the specification gives
    its contract.  The index is the list of stored rows, in insertion order,
    together with the dimension [d] fixed at creation. *)
Module IndexFlatL2.

Record t : Type := Build
  { d : nat;
    xb : list vec }.

Definition new (dim : nat) : t := Build dim [].

Definition ntotal (ix : t) : nat := length (xb ix).

(** Modelled from the spec: [add] appends the rows at the end (row indices
    [ntotal], [ntotal + 1], ...) and rejects a row of the wrong dimension. *)
Definition add (ix : t) (rows : list vec) : result t :=
  if forallb (fun v => Nat.eqb (length v) (d ix)) rows
  then Ok (Build (d ix) (xb ix ++ rows))
  else Raise AssertionError.

(** Squared Euclidean distance. *)
Definition sqdist (x y : vec) : Q :=
  foldr Qplus 0%Q (zip_with (fun a b => (a - b) * (a - b))%Q x y).

(** Stable insertion by distance: [h] goes before the first entry that is
    not strictly closer. *)
Fixpoint insert_by_distance (h : Q * nat) (l : list (Q * nat)) : list (Q * nat) :=
  match l with
  | [] => [h]
  | h' :: l' =>
      if Qle_bool (fst h) (fst h')
      then h :: h' :: l'
      else h' :: insert_by_distance h l'
  end.

Definition sort_by_distance (l : list (Q * nat)) : list (Q * nat) :=
  foldr insert_by_distance [] l.

(** Every stored row with its distance to the query, in row order. *)
Definition scan (ix : t) (q : vec) : list (Q * nat) :=
  imap (fun i v => (sqdist q v, i)) (xb ix).

(** The label faiss reports in a slot it could not fill. *)
Definition no_label : Z := (-1)%Z.
Definition FLT_MAX : Q := 340282346638528859811704183484516925440%Q.

(** Modelled from the spec: [search] is the exact scan: the [k] nearest rows
    by squared distance, closest first, ties by insertion order.  It always
    answers [k] slots; the slots beyond the stored rows carry the label -1,
    which is what the guard [idx >= 0] of [RAGSystem.search] is for. *)
Definition nearest (ix : t) (q : vec) (k : nat) : list (Q * nat) :=
  take k (sort_by_distance (scan ix q)).

Definition search (ix : t) (q : vec) (k : nat) : list (Q * Z) :=
  let found := nearest ix q k in
  map (fun h => (fst h, Z.of_nat (snd h))) found
    ++ replicate (k - length found) (FLT_MAX, no_label).

End IndexFlatL2.

(** ** The engine *)

(** The object [self]: the index and the metadata held in memory. *)
Record RAGSystem : Type := mkRAGSystem
  { index : IndexFlatL2.t;
    metadata : Metadata }.

(** The two files of the data directory, each present or absent. *)
Record Disk : Type := mkDisk
  { faiss_index_bin : option IndexFlatL2.t;
    document_metadata_json : option Metadata }.

Definition empty_disk : Disk := mkDisk None None.

(** What an operation runs in: [calls] counts the ingests made so far (it
    indexes the draws of [uuid4] and the readings of the clock), [disk] is the
    data directory, [self] the engine object. *)
Record World : Type := mkWorld
  { calls : nat;
    disk : Disk;
    self : RAGSystem }.

(** [_save]: both files are written, the index first. *)
Definition _save (s : RAGSystem) (dk : Disk) : Disk :=
  let dk1 := mkDisk (Some (index s)) (document_metadata_json dk) in
  mkDisk (faiss_index_bin dk1) (Some (metadata s)).

(** [get_document_by_id]: the first record with that id, or [None]. *)
Definition get_document_by_id (s : RAGSystem) (doc_id : string) : option Document.t :=
  list_find (fun doc => Document.id doc = doc_id) (documents (metadata s)) ≫= (fun p => Some (snd p)).

(** [get_all_documents] *)
Definition get_all_documents (s : RAGSystem) : list Document.t :=
  documents (metadata s).

(** [get_document_chunks]: the list comprehension over all chunks. *)
Definition get_document_chunks (s : RAGSystem) (doc_id : string) : list Chunk.t :=
  filter (fun chunk => Chunk.document_id chunk = doc_id) (chunks (metadata s)).

(** The score of a distance: [1.0 / (1.0 + d)], as an exact quotient. *)
Definition score_of (dist : Q) : Q := (1 / (1 + dist))%Q.

(** The same expression as the code evaluates it.  [distances[0][i]] is a
    numpy float32, so [1.0 + d] and [1.0 / (1.0 + d)] are float32
    operations: each gives the exact result rounded to the nearest float32,
    ties to even.  Distances and scores are finite and not negative; such a
    float32 is a whole number of units of 2^-149, the smallest positive
    float32, with at most 24 significant bits, and is kept here as that
    whole number. *)
Module Float32.

Local Open Scope Z_scope.

(** 1.0 *)
Definition one : Z := 2 ^ 149.

(** The largest finite float32, (2^24 - 1) * 2^104. *)
Definition FLT_MAX : Z := (2 ^ 24 - 1) * 2 ^ 253.


(** The number a float32 stands for. *)
Definition value (x : Z) : Q := (inject_Z x / inject_Z (2 ^ 149))%Q.

(** The whole number nearest to a / b, the even one of two equally near. *)
Definition rne (a b : Z) : Z :=
  let q := a / b in
  let r := a mod b in
  if 2 * r <? b then q
  else if b <? 2 * r then q + 1
  else if Z.even q then q else q + 1.

(** The float32 nearest to a / b units: the quotient is cut to 24
    significant bits, and below 2^24 units (the subnormal numbers and the
    first binade) to whole units. *)
Definition round (a b : Z) : Z :=
  let s := Z.max 0 (Z.log2 (a / b) - 23) in
  rne a (b * 2 ^ s) * 2 ^ s.

(** [x + y] *)
Definition add (x y : Z) : Z := round (x + y) 1.

(** [x / y] *)
Definition div (x y : Z) : Z := round (x * 2 ^ 149) y.

(** [1.0 / (1.0 + d)] *)
Definition score (d : Z) : Z := div one (add one d).

(** The same expression on the IEEE 754 binary32 operations of the Standard
    Library (24 bits of precision, exponents below 128), to compare with. *)
Definition ieee_one : spec_float := S754_finite false 8388608 (-23).

Definition ieee_score (d : spec_float) : spec_float :=
  SFdiv 24 128 ieee_one (SFadd 24 128 ieee_one d).

(** A finite IEEE number that is not negative, in units of 2^-149. *)
Definition of_ieee (f : spec_float) : option Z :=
  match f with
  | S754_zero _ => Some 0
  | S754_finite false m e =>
      if 0 <=? e + 149 then Some (Z.pos m * 2 ^ (e + 149)) else None
  | _ => None
  end.

(** Whether the two computations of the score agree on the distance
    [m * 2^e]. *)
Definition agree (m : positive) (e : Z) : bool :=
  match of_ieee (S754_finite false m e),
        of_ieee (ieee_score (S754_finite false m e)) with
  | Some d, Some r => r =? score d
  | _, _ => false
  end.

(** Distances to compare on: ten mantissas of 24 bits at every exponent of
    the format, and seven subnormal numbers. *)
Definition mantissas : list positive :=
  [8388608; 8388609; 16777215; 12345677; 11184811;
   9999999; 13421773; 8388611; 15000001; 10066330]%positive.

Definition exponents : list Z := map (fun n => Z.of_nat n - 149) (seq 0 254).

Definition subnormals : list positive := [1; 2; 3; 5; 1000; 8388607; 4194304]%positive.

End Float32.

(** The body of the loop of [search] for the slot [(dist, idx)]: a row is
    kept when [idx >= 0 and idx < len(chunks)], and skipped otherwise. *)
Definition resolve (cs : list Chunk.t) (slot : Q * Z) : option Hit.t :=
  let '(dist, idx) := slot in
  if bool_decide (0 <= idx)%Z && bool_decide (idx < Z.of_nat (length cs))%Z
  then match cs !! Z.to_nat idx with
       | Some chunk => Some (Hit.Build (Chunk.text chunk) (Chunk.document_id chunk) (score_of dist))
       | None => None
       end
  else None.

(** The libraries the engine is built on. *)
Class Collaborators : Type := mkCollaborators
  { (** [self.text_splitter.split_text] *)
    split_text : string -> list string;
    (** [self.model.encode]: a matrix with one row per text, or an
        exception ([None]) *)
    encode : list string -> option (list vec);
    (** [self.model.get_sentence_embedding_dimension()] *)
    embedding_dim : nat;
    (** [faiss.normalize_L2], row by row *)
    normalize_L2 : vec -> vec;
    (** [str(uuid.uuid4())] at the n-th ingest *)
    uuid4 : nat -> string;
    (** [datetime.now().isoformat()] at the n-th ingest *)
    now : nat -> string }.

(** [_generate_embeddings] *)
Definition _generate_embeddings `{Collaborators} (texts : list string) : result (list vec) :=
  match encode texts with
  | Some m => Ok m
  | None => Raise EmbedderError
  end.

(** The engine a fresh data directory gives. *)
Definition fresh `{Collaborators} : RAGSystem :=
  mkRAGSystem (IndexFlatL2.new embedding_dim) (mkMetadata [] []).

(** [__init__]: load the two files when the index file exists, otherwise
    start from an empty index and empty metadata. *)
Definition __init__ `{Collaborators} (dk : Disk) : result RAGSystem :=
  match faiss_index_bin dk with
  | Some ix =>
      match document_metadata_json dk with
      | Some md => Ok (mkRAGSystem ix md)
      | None => Raise FileNotFoundError
      end
  | None => Ok fresh
  end.

(** The chunk records of one ingest, numbered from [start_idx]. *)
Definition chunk_records (doc_id : string) (start_idx : nat) (cs : list string) : list Chunk.t :=
  imap (fun i chunk => Chunk.Build chunk doc_id (start_idx + i) i) cs.

(** [faiss.normalize_L2] applied to the matrix of an ingest: every row is
    normalised.  For the empty batch the embedder hands back an array of
    shape (0,), which has no second axis, and reading the row width from it
    raises [IndexError]. *)
Definition normalize_L2_matrix `{Collaborators} (m : list vec) : result (list vec) :=
  match m with
  | [] => Raise IndexError
  | _ :: _ => Ok (map normalize_L2 m)
  end.

(** [add_document]; the world it returns holds the mutated object and the
    written files.  An exception leaves [self] and the disk as they were at
    the point where it was raised: all three calls that can raise come
    before the first mutation. *)
Definition add_document `{Collaborators} (w : World) (document_text summary : string)
  : result string * World :=
  let doc_id := uuid4 (calls w) in
  let w0 := mkWorld (S (calls w)) (disk w) (self w) in
  let cs := split_text document_text in
  match _generate_embeddings cs with
  | Raise e => (Raise e, w0)
  | Ok chunk_embeddings =>
      match bind (normalize_L2_matrix chunk_embeddings)
                 (IndexFlatL2.add (index (self w))) with
      | Raise e => (Raise e, w0)
      | Ok ix =>
          let md := metadata (self w) in
          let start_idx := length (chunks md) in
          let document_metadata :=
            Document.Build doc_id summary (now (calls w))
              (seq start_idx (length cs)) in
          let s' :=
            mkRAGSystem ix
              (mkMetadata (chunks md ++ chunk_records doc_id start_idx cs)
                          (documents md ++ [document_metadata])) in
          (Ok doc_id, mkWorld (S (calls w)) (_save s' (disk w)) s')
      end
  end.

(** [search] *)
Definition search `{Collaborators} (s : RAGSystem) (query : string) (k : nat)
  : result (list Hit.t) :=
  bind (_generate_embeddings [query]) (fun query_embedding =>
    match map normalize_L2 query_embedding with
    | [] => Raise IndexError
    | q :: _ =>
        Ok (omap (resolve (chunks (metadata s))) (IndexFlatL2.search (index s) q k))
    end).

(** The dict [get_statistics] returns. *)
Module Statistics.
Record t : Type := Build
  { num_documents : nat;
    num_chunks : nat;
    embedding_dimensions : nat }.
End Statistics.

(** [get_statistics] *)
Definition get_statistics `{Collaborators} (s : RAGSystem) : Statistics.t :=
  Statistics.Build (length (documents (metadata s)))
                   (length (chunks (metadata s)))
                   embedding_dim.

(** ** Python strings

    A string is read as a Python [str] with one character per element; the
    characters are the code points 0 to 255, on which the functions below
    are the built-ins of the same name. *)
Module Py.

(** [str.lower] on one character: A-Z, and the capital letters U+00C0 to
    U+00DE except the multiplication sign U+00D7. *)
Definition lower_char (c : ascii) : ascii :=
  let n := nat_of_ascii c in
  if ((65 <=? n) && (n <=? 90)) || ((192 <=? n) && (n <=? 222) && negb (n =? 215))
  then ascii_of_nat (n + 32)
  else c.

(** [str.lower] *)
Fixpoint lower (s : string) : string :=
  match s with
  | EmptyString => EmptyString
  | String c s' => String (lower_char c) (lower s')
  end.

(** [str.isspace] on one character: tab to carriage return, the separators
    U+001C to U+001F, space, U+0085 and U+00A0. *)
Definition isspace (c : ascii) : bool :=
  let n := nat_of_ascii c in
  ((9 <=? n) && (n <=? 13)) || ((28 <=? n) && (n <=? 32)) || (n =? 133) || (n =? 160).

(** [str.lstrip()] *)
Fixpoint lstrip (s : string) : string :=
  match s with
  | EmptyString => EmptyString
  | String c s' => if isspace c then lstrip s' else s
  end.

(** [str.rstrip()] *)
Fixpoint rstrip (s : string) : string :=
  match s with
  | EmptyString => EmptyString
  | String c s' =>
      match rstrip s' with
      | EmptyString => if isspace c then EmptyString else String c EmptyString
      | r => String c r
      end
  end.

(** [str.strip()] *)
Definition strip (s : string) : string := rstrip (lstrip s).

(** [hay.find(needle)]: the lowest index at which [needle] occurs. *)
Fixpoint find (hay needle : string) : option nat :=
  if String.prefix needle hay then Some 0
  else match hay with
       | EmptyString => None
       | String _ hay' => option_map S (find hay' needle)
       end.

(** [needle in hay] *)
Definition contains (hay needle : string) : bool :=
  match find hay needle with
  | Some _ => true
  | None => false
  end.

(** The slice [s[n:]]. *)
Fixpoint slice_from (n : nat) (s : string) : string :=
  match n, s with
  | O, _ => s
  | S n', String _ s' => slice_from n' s'
  | S _, EmptyString => EmptyString
  end.

(** The slice [s[:n]]. *)
Fixpoint slice_to (n : nat) (s : string) : string :=
  match n, s with
  | S n', String c s' => String c (slice_to n' s')
  | _, _ => EmptyString
  end.

(** [re.search(start + "(.*?)" + end, s, re.DOTALL)] for literal [start] and
    [end]: group 1 of the leftmost match, the text between the first [start]
    and the first [end] after it. *)
Definition search_between (start end_ s : string) : option string :=
  match find s start with
  | None => None
  | Some i =>
      let rest := slice_from (i + String.length start) s in
      match find rest end_ with
      | None => None
      | Some j => Some (slice_to j rest)
      end
  end.

(** [re.search(pattern, s)] for a pattern that is an alternation of literal
    strings, given by its alternatives. *)
Definition search_any (alternatives : list string) (s : string) : bool :=
  existsb (contains s) alternatives.

(** The first element of [l] that [f] maps to a result: a [for] loop that
    returns from its body. *)
Fixpoint first_some {A B : Type} (f : A -> option B) (l : list A) : option B :=
  match l with
  | [] => None
  | x :: l' =>
      match f x with
      | Some y => Some y
      | None => first_some f l'
      end
  end.

(** A text that does not start with white space. *)
Definition starts_clean (s : string) : Prop :=
  match s with
  | EmptyString => True
  | String c _ => isspace c = false
  end.

End Py.

(** ** Parsing the user's request ([src/app/utils.py]) *)

Definition newline : string := String "010"%char EmptyString.
Definition double_quote : string := String "034"%char EmptyString.

(** The alternatives of the pattern [head + "(document|info|information|text|content)"]. *)
Definition this_what (head : string) : list string :=
  map (fun what => head +:+ what) ["document"; "info"; "information"; "text"; "content"].

Definition ingest_patterns : list (list string) :=
  [ this_what "add this ";
    this_what "upload this ";
    this_what "ingest this ";
    this_what "store this ";
    this_what "process this ";
    this_what "save this ";
    this_what "include this " ].

(** [detect_query_type] *)
Definition detect_query_type (query : string) : string :=
  if existsb (fun pattern => Py.search_any pattern (Py.lower query)) ingest_patterns
  then "ingest"
  else "question".

Definition delimiters : list (string * string) :=
  [ ("[", "]");
    ("{", "}");
    ("```", "```");
    (double_quote, double_quote);
    ("'", "'") ].

Definition phrases : list string :=
  [ "add this document to your database:";
    "add this document:";
    "ingest this document:";
    "process this document:";
    "here's the document:";
    "here is the document:" ].

Definition potential_commands : list string :=
  [ "please add this document";
    "can you add this document";
    "add this document";
    "ingest this document";
    "process this document" ].

(** The body of the loop over [potential_commands] for one command. *)
Definition after_command (query cmd : string) : option string :=
  match Py.find (Py.lower query) cmd with
  | None => None
  | Some cmd_pos =>
      let cmd_end := cmd_pos + String.length cmd in
      let window := Py.slice_to 5 (Py.slice_from cmd_end query) in
      match Py.first_some (Py.find window) [":"; "-"; "."; newline] with
      | Some at_delim => Some (Py.strip (Py.slice_from (cmd_end + at_delim + 1) query))
      | None => Some (Py.strip (Py.slice_from cmd_end query))
      end
  end.

(** The body of the loop over [phrases] for one phrase. *)
Definition after_phrase (query phrase : string) : option string :=
  match Py.find (Py.lower query) phrase with
  | None => None
  | Some i =>
      Some (Py.strip (Py.slice_from (i + String.length phrase) (Py.lower query)))
  end.

(** [extract_document_from_query] *)
Definition extract_document_from_query (query : string) : option string :=
  match Py.first_some (fun d => Py.search_between (fst d) (snd d) query) delimiters with
  | Some group => Some (Py.strip group)
  | None =>
      match Py.first_some (after_phrase query) phrases with
      | Some document => Some document
      | None =>
          if 500 <? String.length query
          then Py.first_some (after_command query) potential_commands
          else None
      end
  end.

(** [parse_user_query] *)
Definition parse_user_query (query : string) : string * option string :=
  let query_type := detect_query_type query in
  if String.eqb query_type "ingest"
  then (query_type, extract_document_from_query query)
  else (query_type, None).

(** ** Relevance of a document ([src/app/document_processor.py]) *)

Definition CONCERT_KEYWORDS : list string :=
  [ "concert"; "tour"; "performance"; "venue"; "artist"; "band"; "musician";
    "stage"; "ticket"; "audience"; "show"; "live"; "perform"; "music"; "gig";
    "festival"; "arena"; "stadium"; "hall"; "theater"; "theatre"; "amphitheatre";
    "acoustic"; "backstage"; "crowd"; "fan"; "setlist"; "booking"; "sold out";
    "world tour"; "opening act"; "headliner"; "special guest" ].

Definition TARGET_YEARS : list string := ["2025"; "2026"].

(** The sum over the keywords found in the lower-cased text. *)
Definition keyword_count (text_lower : string) : nat :=
  length (List.filter (fun keyword => Py.contains text_lower (Py.lower keyword))
                      CONCERT_KEYWORDS).

(** [DocumentProcessor.is_relevant_document] *)
Definition is_relevant_document (text : string) : bool :=
  let text_lower := Py.lower text in
  let year_relevant := existsb (Py.contains text) TARGET_YEARS in
  if negb year_relevant then false
  else 3 <=? keyword_count text_lower.

(** ** The query engine ([src/app/query_engine.py]) *)

Definition tour_keywords : list string :=
  [ "tour"; "concert"; "perform"; "show"; "stage"; "ticket";
    "venue"; "arena"; "stadium"; "date"; "location" ].

(** [QueryEngine.is_tour_query] *)
Definition is_tour_query (query : string) : bool :=
  let query_lower := Py.lower query in
  existsb (Py.contains query_lower) tour_keywords.

(** [QueryEngine._get_context]: the six best chunks, numbered from 1. *)
Definition _get_context `{Collaborators} (s : RAGSystem) (query : string) : result string :=
  bind (search s query 6) (fun search_results =>
    match search_results with
    | [] => Ok "No relevant information found."
    | _ =>
        Ok (String.concat (newline +:+ newline)
              (imap (fun i result =>
                       "[Excerpt " +:+ pretty (i + 1) +:+ "]: " +:+ Hit.text result)
                    search_results))
    end).

(** ** The command line ([src/main.py], with [format_response] and
    [load_env_variables] of [src/app/utils.py]) *)

(** What the command processor calls besides the engine. *)
Class Frontend : Type := mkFrontend
  { (** [DocumentProcessor.summarize_document]: the caption, built from
        spaCy's entities *)
    summarize_document : string -> string;
    (** [QueryEngine(rag_system)]: building the chat model; [Some text] is
        an exception with that message *)
    chat_model_error : option string;
    (** the prompt, the chat model and the output parser of [self.chain],
        applied to the context and the question; [inr text] is an exception
        with that message *)
    invoke_llm : string -> string -> string + string;
    (** [str(e)] *)
    str_of_exn : exn -> string }.

(** [DocumentProcessor.process_document]; the pairs it returns are
    [(False, None)], here [None], and [(True, summary)], here
    [Some summary]. *)
Definition process_document `{Frontend} (text : string) : option string :=
  if negb (is_relevant_document text) then None
  else Some (summarize_document text).

(** [QueryEngine.answer_query] *)
Definition answer_query `{Collaborators} `{Frontend} (s : RAGSystem) (query : string) : string :=
  if negb (is_tour_query query)
  then "I can only answer questions about concert tours. Please ask a question related to concerts, tours, or performances."
  else
    let sorry := "Sorry, I encountered an error while trying to answer your question. Error: " in
    match _get_context s query with
    | Raise e => sorry +:+ str_of_exn e
    | Ok context =>
        match invoke_llm context query with
        | inl answer => answer
        | inr text => sorry +:+ text
        end
    end.

(** [format_response]; [clock] is what [format_current_time()] returns
    during the call. *)
Definition format_response (clock response_type message : string)
    (additional_data : option (gmap string string)) : gmap string string :=
  let response : gmap string string :=
    <["timestamp" := clock]> (<["message" := message]> (<["type" := response_type]> ∅)) in
  match additional_data with
  | Some data => if decide (data = ∅) then response else data ∪ response
  | None => response
  end.

(** How [process_command] ends: with a response, or with an exception of
    the engine or of the chat model. *)
Inductive outcome : Type :=
  | Response (response : gmap string string)
  | EngineRaised (e : exn)
  | ChatModelRaised (text : string).

(** [process_command]: every command builds a new [RAGSystem] from the data
    directory. *)
Definition process_command `{Collaborators} `{Frontend}
    (clock : string) (w : World) (command : string) : outcome * World :=
  let '(query_type, document_content) := parse_user_query command in
  if String.eqb query_type "ingest" then
    match document_content with
    | None | Some EmptyString =>
        (Response (format_response clock "error"
           "I couldn't identify any document content to ingest. Please make sure to include the document content in your request."
           None), w)
    | Some content =>
        match process_document content with
        | None =>
            (Response (format_response clock "error"
               ("The document doesn't appear to be related to concert tours in 2025-2026. "
                +:+ "I can only process documents about upcoming concert tours.")
               None), w)
        | Some summary =>
            match __init__ (disk w) with
            | Raise e => (EngineRaised e, w)
            | Ok rag_system =>
                match add_document (mkWorld (calls w) (disk w) rag_system) content summary with
                | (Raise e, w') => (EngineRaised e, w')
                | (Ok doc_id, w') =>
                    (Response (format_response clock "success"
                       "Thank you for sharing! Your document has been successfully added to the database."
                       (Some (<["summary" := summary]> (<["document_id" := doc_id]> ∅)))),
                     w')
                end
            end
        end
    end
  else
    match __init__ (disk w) with
    | Raise e => (EngineRaised e, w)
    | Ok rag_system =>
        let w' := mkWorld (calls w) (disk w) rag_system in
        match chat_model_error with
        | Some text => (ChatModelRaised text, w')
        | None =>
            (Response (format_response clock "answer" (answer_query rag_system command) None), w')
        end
    end.

(** How [load_env_variables] ends: with the dictionary, or with the
    [ValueError] of unpacking a line that has no equals sign. *)
Inductive env_outcome : Type :=
  | EnvVars (env_vars : gmap string string)
  | ValueError.

(** The body of the loop over the lines of the .env file. *)
Definition read_env_line (env_vars : gmap string string) (line : string)
  : option (gmap string string) :=
  if negb (String.eqb (Py.strip line) EmptyString) && negb (String.prefix "#" line)
  then match Py.find (Py.strip line) "=" with
       | Some i =>
           Some (<[Py.slice_to i (Py.strip line) := Py.slice_from (i + 1) (Py.strip line)]>
                   env_vars)
       | None => None
       end
  else Some env_vars.

Fixpoint read_env_lines (env_vars : gmap string string) (lines : list string)
  : option (gmap string string) :=
  match lines with
  | [] => Some env_vars
  | line :: lines' =>
      match read_env_line env_vars line with
      | Some env_vars' => read_env_lines env_vars' lines'
      | None => None
      end
  end.

(** [load_env_variables]; [dotenv] holds the lines of the file .env when
    it exists, [environ] is [os.environ]. *)
Definition load_env_variables (dotenv : option (list string))
    (environ : gmap string string) : env_outcome :=
  match read_env_lines ∅ (default [] dotenv) with
  | Some env_vars => EnvVars (environ ∪ env_vars)
  | None => ValueError
  end.

(** A line that makes the loader raise: not blank, not a comment, and
    without an equals sign. *)
Definition malformed (line : string) : Prop :=
  Py.strip line <> EmptyString /\ String.prefix "#" line = false /\
  Py.contains (Py.strip line) "=" = false.

(** Where an entry of the dictionary read from the lines comes from: a line
    that, stripped, is the key, an equals sign and the value. *)
Definition assigned_by (lines : list string) (key value : string) : Prop :=
  exists line,
    line ∈ lines /\ Py.strip line = key +:+ "=" +:+ value /\
    Py.contains key "=" = false.

(** ** Runs of the service *)

(** The first start, on an empty data directory. *)
Definition boot `{Collaborators} : World := mkWorld 0 empty_disk fresh.

(** One step of a run: an ingest (which may raise), or a restart of the
    process, which builds the object again from the files. *)
Inductive step `{Collaborators} : World -> World -> Prop :=
  | step_ingest w document_text summary :
      step w (snd (add_document w document_text summary))
  | step_restart w s :
      __init__ (disk w) = Ok s ->
      step w (mkWorld (calls w) (disk w) s).

Definition reachable `{Collaborators} (w : World) : Prop := rtc step boot w.

(** The contract of the embedder (section 4.2 of the specification): one
    vector per text. *)
Definition embedder_ok `{Collaborators} : Prop :=
  forall texts m, encode texts = Some m -> length m = length texts.

(** Identifiers drawn from [uuid4] do not repeat. *)
Definition uuid_ok `{Collaborators} : Prop :=
  forall i j, uuid4 i = uuid4 j -> i = j.

(** The distance from the query [q] to the stored row [r]. *)
Definition row_distance (ix : IndexFlatL2.t) (q : vec) (r : nat) : Q :=
  match IndexFlatL2.xb ix !! r with
  | Some v => IndexFlatL2.sqdist q v
  | None => 0%Q
  end.

(** The hit [search] reports for the stored row [r]. *)
Definition row_hit (s : RAGSystem) (q : vec) (r : nat) (h : Hit.t) : Prop :=
  exists chunk,
    chunks (metadata s) !! r = Some chunk /\
    h = Hit.Build (Chunk.text chunk) (Chunk.document_id chunk)
          (score_of (row_distance (index s) q r)).

(** The hit for the stored row of [h], when that row has a chunk record. *)
Definition hit_of_row (cs : list Chunk.t) (h : Q * nat) : option Hit.t :=
  match cs !! snd h with
  | Some chunk => Some (Hit.Build (Chunk.text chunk) (Chunk.document_id chunk) (score_of (fst h)))
  | None => None
  end.

(** The order of the exact scan: closer first, and at equal distance the row
    inserted earlier first. *)
Definition before (h1 h2 : Q * nat) : Prop :=
  (fst h1 < fst h2)%Q \/ (fst h1 == fst h2 /\ snd h1 < snd h2).

(** The same order on the stored rows, each taken with its distance from
    the query [q]. *)
Definition ranked_before (ix : IndexFlatL2.t) (q : vec) (r1 r2 : nat) : Prop :=
  before (row_distance ix q r1, r1) (row_distance ix q r2, r2).

(** What every reachable world satisfies. *)
Record consistent `{Collaborators} (w : World) : Prop := mkConsistent
  { ids_dense :
      map Chunk.chunk_id (chunks (metadata (self w)))
      = seq 0 (IndexFlatL2.ntotal (index (self w)));
    rows_normalized :
      Forall (fun v => exists u, v = normalize_L2 u) (IndexFlatL2.xb (index (self w)));
    chunk_owner_drawn :
      Forall (fun c => exists j, j < calls w /\ Chunk.document_id c = uuid4 j)
             (chunks (metadata (self w)));
    document_id_drawn :
      Forall (fun doc => exists j, j < calls w /\ Document.id doc = uuid4 j)
             (documents (metadata (self w)));
    files_current : __init__ (disk w) = Ok (self w) }.

(** How the document records and the chunk records refer to each other. *)
Record catalogued (s : RAGSystem) : Prop := mkCatalogued
  { document_ids_distinct :
      NoDup (map Document.id (documents (metadata s)));
    chunk_ids_cover :
      concat (map Document.chunk_ids (documents (metadata s)))
      = seq 0 (length (chunks (metadata s)));
    document_owns_its_chunks :
      Forall (fun doc =>
                map Chunk.chunk_id (get_document_chunks s (Document.id doc))
                = Document.chunk_ids doc)
             (documents (metadata s));
    chunk_owner_stored :
      Forall (fun c => Chunk.document_id c ∈ map Document.id (documents (metadata s)))
             (chunks (metadata s)) }.

(** ** Collaborators to run the model on *)

(** A unary numeral: distinct numbers give distinct strings. *)
Fixpoint tally (n : nat) : string :=
  match n with
  | O => "#"
  | S n' => "i" +:+ tally n'
  end.

(** An embedder into two dimensions: the length of the text and 1. *)
Definition length_encode (texts : list string) : option (list vec) :=
  Some (map (fun t => [inject_Z (Z.of_nat (String.length t)); 1%Q]) texts).

(** The splitter that keeps a non-empty text whole. *)
Definition whole_text (t : string) : list string :=
  if String.eqb t EmptyString then [] else [t].

Definition demo : Collaborators :=
  mkCollaborators whole_text length_encode 2 (fun v => v) tally (fun n => "2025-01-01T00:00:0" +:+ tally n).

(** The same with an embedder that is out of service. *)
Definition offline : Collaborators :=
  mkCollaborators whole_text (fun _ => None) 2 (fun v => v) tally (fun n => "2025-01-01T00:00:0" +:+ tally n).

(** A data directory whose two files disagree: one stored row and no chunk
    record.  [__init__] loads it as it is. *)
Definition torn_index : IndexFlatL2.t := IndexFlatL2.Build 2 [[1%Q; 0%Q]].
Definition torn_disk : Disk := mkDisk (Some torn_index) (Some (mkMetadata [] [])).
Definition torn : RAGSystem := mkRAGSystem torn_index (mkMetadata [] []).

(** The reading of the specification in which a row without a chunk record
    makes [search] raise. *)
Definition search_fails_loudly `{Collaborators} : Prop :=
  forall s query k qv rest dist idx,
    encode [query] = Some (qv :: rest) ->
    (dist, idx) ∈ IndexFlatL2.search (index s) (normalize_L2 qv) k ->
    (0 <= idx)%Z ->
    chunks (metadata s) !! Z.to_nat idx = None ->
    exists e, search s query k = Raise e.

(** A run: two ingests on a fresh data directory.  "London" and "Berlin"
    have the same length, so their rows are at the same distance from any
    query. *)
Definition demo_world1 : World :=
  snd (@add_document demo (@boot demo) "London" "Artist: Adele").
Definition demo_world2 : World :=
  snd (@add_document demo demo_world1 "Berlin" "Artist: BTS").

(** A front end to run the command processor on: a fixed caption, a chat
    model that is available and answers with the context it was given. *)
Definition demo_frontend : Frontend :=
  mkFrontend (fun _ => "Artist: Adele") None (fun context _ => inl context)
             (fun _ => "embedder unavailable").

Definition demo_command : string :=
  "Please add this document: [Adele world tour 2025 concert]".
Definition demo_content : string := "Adele world tour 2025 concert".
Definition demo_question : string := "When is Adele performing in London?".

(** ** The exact scan *)

Section Scan.

Import IndexFlatL2.

Lemma sqdist_nonneg (x y : vec) : (0 <= sqdist x y)%Q.
Proof.
  unfold sqdist. revert y.
  induction x as [|a x IH]; intros [|b y]; simpl; try apply Qle_refl.
  replace 0%Q with (0 + 0)%Q by reflexivity.
  apply Qplus_le_compat; [|apply IH].
  destruct (Qlt_le_dec (a - b) 0) as [Hneg|Hpos].
  - assert (E : ((- (a - b)) * (- (a - b)) == (a - b) * (a - b))%Q) by ring.
    rewrite <- E.
    apply Qmult_le_0_compat; apply (Qopp_le_compat (a - b) 0), Qlt_le_weak, Hneg.
  - apply Qmult_le_0_compat; exact Hpos.
Qed.

#[local] Instance before_trans : Transitive before.
Proof.
  intros [d1 i1] [d2 i2] [d3 i3]; unfold before; simpl.
  intros [H12|[E12 L12]] [H23|[E23 L23]].
  - left. eapply Qlt_trans; eassumption.
  - left. rewrite <- E23. exact H12.
  - left. rewrite E12. exact H23.
  - right. split; [rewrite E12; exact E23 | lia].
Qed.

Lemma insert_by_distance_perm h l : insert_by_distance h l ≡ₚ h :: l.
Proof.
  induction l as [|h' l IH]; simpl; [done|].
  destruct (Qle_bool (fst h) (fst h')); [done|].
  rewrite IH. apply Permutation_swap.
Qed.

Lemma sort_by_distance_perm l : sort_by_distance l ≡ₚ l.
Proof.
  induction l as [|h l IH]; simpl; [done|].
  rewrite insert_by_distance_perm. by rewrite IH.
Qed.

Lemma insert_by_distance_sorted h l :
  StronglySorted before l ->
  Forall (fun h' => snd h < snd h') l ->
  StronglySorted before (insert_by_distance h l).
Proof.
  induction 1 as [|h' l Hl IH Hall]; intros Hlate; simpl.
  - repeat constructor.
  - apply Forall_cons in Hlate as [Hh' Hlate].
    destruct (Qle_bool (fst h) (fst h')) eqn:Hle.
    + apply Qle_bool_iff in Hle.
      assert (Hhh' : before h h').
      { destruct (Qle_lt_or_eq _ _ Hle) as [Hlt|Heq]; [by left | by right]. }
      constructor; [by constructor|].
      constructor; [exact Hhh'|].
      eapply Forall_impl; [exact Hall|]. intros x Hx. by etrans.
    + assert (Hlt : (fst h' < fst h)%Q).
      { apply Qnot_le_lt. intros Hc. apply Qle_bool_iff in Hc. congruence. }
      constructor; [by apply IH|].
      rewrite insert_by_distance_perm.
      constructor; [by left | exact Hall].
Qed.

Lemma sort_by_distance_sorted l :
  StronglySorted (fun a b => snd a < snd b) l ->
  StronglySorted before (sort_by_distance l).
Proof.
  induction 1 as [|h l Hl IH Hall]; simpl; [constructor|].
  apply insert_by_distance_sorted; [exact IH|].
  by rewrite sort_by_distance_perm.
Qed.

Lemma scan_lookup ix q i h :
  scan ix q !! i = Some h <->
  exists v, xb ix !! i = Some v /\ h = (sqdist q v, i).
Proof.
  unfold scan. rewrite list_lookup_imap.
  destruct (xb ix !! i) as [v|]; simpl; split.
  - intros [= <-]. by exists v.
  - intros (v' & [= <-] & ->). done.
  - done.
  - by intros (v' & ? & _).
Qed.

Lemma scan_rows ix q : map snd (scan ix q) = seq 0 (ntotal ix).
Proof.
  unfold scan, ntotal.
  change (map snd) with (fmap (M:=list) (@snd Q nat)).
  rewrite fmap_imap. rewrite (imap_ext _ (fun i _ => id i)) by done.
  rewrite (imap_seq_0 (xb ix) id). apply list_fmap_id.
Qed.

Lemma scan_increasing ix q :
  StronglySorted (fun a b => snd a < snd b) (scan ix q).
Proof.
  unfold scan.
  enough (Hgen : forall l j,
    StronglySorted (fun a b : Q * nat => snd a < snd b)
      (imap (fun i v => (sqdist q v, j + i)) l)
    /\ Forall (fun h : Q * nat => j <= snd h) (imap (fun i v => (sqdist q v, j + i)) l)).
  { apply (Hgen (xb ix) 0). }
  induction l as [|v l IH]; intros j; simpl; [by split; constructor|].
  rewrite (imap_ext _ (fun i v => (sqdist q v, S j + i))); last first.
  { intros i x _. simpl. f_equal. lia. }
  destruct (IH (S j)) as [Hs Hf]. split.
  - constructor; [exact Hs|].
    eapply Forall_impl; [exact Hf|]. simpl. lia.
  - constructor; [simpl; lia|].
    eapply Forall_impl; [exact Hf|]. simpl. lia.
Qed.

Lemma scan_distance ix q :
  Forall (fun h => fst h = row_distance ix q (snd h) /\ snd h < ntotal ix) (scan ix q).
Proof.
  apply Forall_lookup. intros i h Hi.
  apply scan_lookup in Hi as (v & Hv & ->). simpl.
  unfold row_distance. rewrite Hv. split; [done|].
  by apply lookup_lt_Some in Hv.
Qed.

Lemma scan_sorted_rows ix q :
  map snd (sort_by_distance (scan ix q)) ≡ₚ seq 0 (ntotal ix).
Proof.
  rewrite <- (scan_rows ix q).
  change (map snd) with (fmap (M:=list) (@snd Q nat)).
  apply fmap_Permutation, sort_by_distance_perm.
Qed.

(** What the exact scan answers: [min k ntotal] distinct stored rows with
    their distances, in the order [before], every row left out coming after
    every row kept. *)
Lemma nearest_spec ix q k :
  length (nearest ix q k) = Nat.min k (ntotal ix) /\
  StronglySorted before (nearest ix q k) /\
  NoDup (map snd (nearest ix q k)) /\
  Forall (fun h => fst h = row_distance ix q (snd h) /\ snd h < ntotal ix)
         (nearest ix q k) /\
  (forall h r', h ∈ nearest ix q k -> r' < ntotal ix ->
     r' ∉ map snd (nearest ix q k) ->
     before h (row_distance ix q r', r')).
Proof.
  unfold nearest.
  set (sorted := sort_by_distance (scan ix q)).
  assert (Hperm : sorted ≡ₚ scan ix q) by apply sort_by_distance_perm.
  assert (Hsorted : StronglySorted before sorted)
    by apply sort_by_distance_sorted, scan_increasing.
  assert (Hdist : Forall (fun h => fst h = row_distance ix q (snd h) /\ snd h < ntotal ix) sorted).
  { rewrite Hperm. apply scan_distance. }
  assert (Hrows : map snd sorted ≡ₚ seq 0 (ntotal ix)) by apply scan_sorted_rows.
  assert (Hnodup : NoDup (map snd sorted)).
  { rewrite Hrows. apply NoDup_seq. }
  rewrite <- (take_drop k sorted) in Hsorted, Hnodup, Hdist.
  change (map snd) with (fmap (M:=list) (@snd Q nat)) in *.
  rewrite fmap_app in Hnodup.
  apply NoDup_app in Hnodup as (Hnodup & _ & _).
  apply Forall_app in Hdist as [Hdist Hdist'].
  split.
  { rewrite length_take. f_equal.
    apply Permutation_length in Hperm. rewrite Hperm.
    unfold scan. apply length_imap. }
  split; [by eapply StronglySorted_app_1_l|].
  split; [done|]. split; [done|].
  intros h r' Hh Hr' Hout.
  assert (Hin : r' ∈ snd <$> sorted).
  { rewrite Hrows. apply elem_of_seq. lia. }
  rewrite <- (take_drop k sorted), fmap_app in Hin.
  apply elem_of_app in Hin as [Hin|Hin]; [done|].
  apply list_elem_of_fmap in Hin as (h' & -> & Hh').
  pose proof (StronglySorted_app_1_elem_of _ _ _ _ _ Hsorted Hh Hh') as Hbefore.
  rewrite Forall_forall in Hdist'. destruct (Hdist' h' Hh') as [<- _].
  by destruct h'.
Qed.

Lemma StronglySorted_lookup_lt {A} (R : relation A) (l : list A) i j x y :
  StronglySorted R l -> i < j -> l !! i = Some x -> l !! j = Some y -> R x y.
Proof.
  intros Hl. revert i j. induction Hl as [|a l Hl IH Ha]; intros i j Hij Hi Hj; [done|].
  destruct j as [|j]; [lia|]. destruct i as [|i]; simpl in *.
  - injection Hi as ->. rewrite Forall_forall in Ha.
    apply Ha. by eapply list_elem_of_lookup_2.
  - apply (IH i j); [lia|done|done].
Qed.

(** With at least as many slots as stored rows, every row is found. *)
Lemma nearest_all ix q k r :
  ntotal ix <= k -> r < ntotal ix -> r ∈ map snd (nearest ix q k).
Proof.
  intros Hk Hr. unfold nearest.
  rewrite take_ge; last first.
  { rewrite (Permutation_length (sort_by_distance_perm _)).
    unfold scan. by rewrite length_imap. }
  rewrite scan_sorted_rows. apply elem_of_seq. lia.
Qed.

(** Positions in the answer follow [before]: by distance, and by row at
    equal distance. *)
Lemma nearest_order ix q k i j hi hj :
  i < j -> nearest ix q k !! i = Some hi -> nearest ix q k !! j = Some hj ->
  (fst hi <= fst hj)%Q /\ (fst hi == fst hj -> snd hi < snd hj).
Proof.
  intros Hij Hi Hj.
  destruct (nearest_spec ix q k) as (_ & Hsorted & _).
  destruct (StronglySorted_lookup_lt _ _ _ _ _ _ Hsorted Hij Hi Hj) as [Hlt|[Heq Hrow]].
  - split; [by apply Qlt_le_weak|]. intros Heq. rewrite Heq in Hlt.
    by apply Qlt_irrefl in Hlt.
  - split; [|done]. rewrite Heq. apply Qle_refl.
Qed.

End Scan.

(** ** Ingestion, step by step *)

Section Ingest.

Context {E : Collaborators}.

Lemma index_add_ok ix rows ix' :
  IndexFlatL2.add ix rows = Ok ix' ->
  IndexFlatL2.xb ix' = IndexFlatL2.xb ix ++ rows /\ IndexFlatL2.d ix' = IndexFlatL2.d ix.
Proof.
  unfold IndexFlatL2.add. case_match; [|done]. by intros [= <-].
Qed.

(** A successful ingest, spelled out. *)
Lemma add_document_ok w document_text summary doc_id w' :
  add_document w document_text summary = (Ok doc_id, w') ->
  exists m ix,
    encode (split_text document_text) = Some m /\
    IndexFlatL2.add (index (self w)) (map normalize_L2 m) = Ok ix /\
    doc_id = uuid4 (calls w) /\
    calls w' = S (calls w) /\
    index (self w') = ix /\
    chunks (metadata (self w'))
      = chunks (metadata (self w))
        ++ chunk_records doc_id (length (chunks (metadata (self w)))) (split_text document_text) /\
    documents (metadata (self w'))
      = documents (metadata (self w))
        ++ [Document.Build doc_id summary (now (calls w))
              (seq (length (chunks (metadata (self w)))) (length (split_text document_text)))] /\
    disk w' = _save (self w') (disk w).
Proof.
  unfold add_document, _generate_embeddings.
  destruct (encode (split_text document_text)) as [m|]; [|done].
  destruct m as [|v m]; [done|]. cbn [normalize_L2_matrix bind].
  destruct (IndexFlatL2.add _ _) as [ix|] eqn:Hadd; [|done].
  intros [= <- <-]. exists (v :: m), ix. simpl. done.
Qed.

(** An ingest that raises changes neither the object nor the files. *)
Lemma add_document_raise w document_text summary e w' :
  add_document w document_text summary = (Raise e, w') ->
  self w' = self w /\ disk w' = disk w /\ calls w' = S (calls w).
Proof.
  unfold add_document, _generate_embeddings.
  destruct (encode (split_text document_text)) as [m|].
  - destruct (bind _ _) as [ix|]; [done|]. by intros [= <- <-].
  - by intros [= <- <-].
Qed.

Lemma chunk_records_ids doc_id start cs :
  map Chunk.chunk_id (chunk_records doc_id start cs) = seq start (length cs).
Proof.
  unfold chunk_records.
  change (map Chunk.chunk_id) with (fmap (M:=list) Chunk.chunk_id).
  rewrite fmap_imap.
  rewrite (imap_ext _ (fun i _ => Nat.add start i)) by done.
  rewrite (imap_seq_0 cs (Nat.add start)), fmap_add_seq. f_equal. lia.
Qed.

Lemma chunk_records_positions doc_id start cs :
  map Chunk.position (chunk_records doc_id start cs) = seq 0 (length cs).
Proof.
  unfold chunk_records.
  change (map Chunk.position) with (fmap (M:=list) Chunk.position).
  rewrite fmap_imap.
  rewrite (imap_ext _ (fun i _ => id i)) by done.
  rewrite (imap_seq_0 cs id). apply list_fmap_id.
Qed.

Lemma chunk_records_owner doc_id start cs :
  Forall (fun c => Chunk.document_id c = doc_id) (chunk_records doc_id start cs).
Proof.
  apply Forall_forall. intros c Hc.
  apply elem_of_lookup_imap in Hc as (i & t & -> & _). done.
Qed.

Lemma init_after_save s dk : __init__ (_save s dk) = Ok s.
Proof. by destruct s. Qed.

Lemma consistent_boot : consistent boot.
Proof. split; simpl; try done; constructor. Qed.

Lemma consistent_step w w' :
  embedder_ok -> consistent w -> step w w' -> consistent w'.
Proof.
  intros Hemb [Hids Hnorm Hown Hdoc Hfiles] Hstep.
  destruct Hstep as [w document_text summary | w s Hinit].
  - destruct (add_document w document_text summary) as [[doc_id|e] w'] eqn:Hrun; simpl.
    + apply add_document_ok in Hrun
        as (m & ix & Henc & Hadd & -> & Hcalls & Hix & Hch & Hdocs & Hdisk).
      apply index_add_ok in Hadd as [Hxb _].
      specialize (Hemb _ _ Henc).
      split.
      * assert (Hn : length (chunks (metadata (self w)))
                     = length (IndexFlatL2.xb (index (self w)))).
        { apply (f_equal length) in Hids.
          by rewrite length_map, length_seq in Hids. }
        rewrite Hch, Hix. unfold IndexFlatL2.ntotal in *. rewrite Hxb.
        rewrite map_app, Hids, chunk_records_ids, length_app, length_map, Hemb, Hn.
        by rewrite seq_app.
      * rewrite Hix, Hxb. apply Forall_app. split; [exact Hnorm|].
        apply Forall_forall. intros v Hv.
        apply list_elem_of_In, in_map_iff in Hv as (u & <- & _). by exists u.
      * rewrite Hch, Hcalls. apply Forall_app. split.
        -- eapply Forall_impl; [exact Hown|]. intros c (j & ? & ?). exists j. split; [lia|done].
        -- eapply Forall_impl; [apply chunk_records_owner|].
           intros c ->. exists (calls w). split; [lia|done].
      * rewrite Hdocs, Hcalls. apply Forall_app. split.
        -- eapply Forall_impl; [exact Hdoc|]. intros c (j & ? & ?). exists j. split; [lia|done].
        -- repeat constructor. exists (calls w). split; [lia|done].
      * rewrite Hdisk. apply init_after_save.
    + apply add_document_raise in Hrun as (Hself & Hdisk & Hcalls).
      split; rewrite ?Hself, ?Hdisk, ?Hcalls; try done.
      * eapply Forall_impl; [exact Hown|]. intros c (j & ? & ?). exists j. split; [lia|done].
      * eapply Forall_impl; [exact Hdoc|]. intros c (j & ? & ?). exists j. split; [lia|done].
  - rewrite Hfiles in Hinit. injection Hinit as <-.
    split; simpl; done.
Qed.

Lemma reachable_consistent w : embedder_ok -> reachable w -> consistent w.
Proof.
  intros Hemb. unfold reachable. revert w. apply rtc_ind_r.
  - apply consistent_boot.
  - eauto using consistent_step.
Qed.

(** In a consistent world the index and the chunk list have the same
    length. *)
Lemma consistent_lengths w :
  consistent w ->
  length (chunks (metadata (self w))) = IndexFlatL2.ntotal (index (self w)).
Proof.
  intros [Hids _ _ _ _].
  apply (f_equal length) in Hids. by rewrite length_map, length_seq in Hids.
Qed.

Lemma filter_owner_none (cs : list Chunk.t) doc_id :
  Forall (fun c => Chunk.document_id c <> doc_id) cs ->
  filter (fun c => Chunk.document_id c = doc_id) cs = [].
Proof.
  induction 1 as [|c cs Hc _ IH]; [done|]. by rewrite filter_cons_False.
Qed.

Lemma filter_owner_all (cs : list Chunk.t) doc_id :
  Forall (fun c => Chunk.document_id c = doc_id) cs ->
  filter (fun c => Chunk.document_id c = doc_id) cs = cs.
Proof.
  induction 1 as [|c cs Hc _ IH]; [done|]. rewrite filter_cons_True by done. by f_equal.
Qed.

(** The chunks stored before the n-th ingest belong to earlier draws. *)
Lemma consistent_not_owner w j :
  uuid_ok -> consistent w -> calls w <= j ->
  Forall (fun c => Chunk.document_id c <> uuid4 j) (chunks (metadata (self w))).
Proof.
  intros Hinj Hw Hj.
  eapply Forall_impl; [apply (chunk_owner_drawn w Hw)|].
  intros c (i & Hi & ->) Heq. apply Hinj in Heq. lia.
Qed.

Lemma consistent_not_document w j :
  uuid_ok -> consistent w -> calls w <= j ->
  Forall (fun doc => Document.id doc <> uuid4 j) (documents (metadata (self w))).
Proof.
  intros Hinj Hw Hj.
  eapply Forall_impl; [apply (document_id_drawn w Hw)|].
  intros c (i & Hi & ->) Heq. apply Hinj in Heq. lia.
Qed.

(** Later steps add no chunk to a document already ingested. *)
Lemma step_keeps_chunks w w' j :
  uuid_ok -> consistent w -> j < calls w -> step w w' ->
  get_document_chunks (self w') (uuid4 j) = get_document_chunks (self w) (uuid4 j)
  /\ j < calls w'.
Proof.
  intros Hinj Hw Hj Hstep.
  destruct Hstep as [w document_text summary | w s Hinit].
  - destruct (add_document w document_text summary) as [[doc_id|e] w'] eqn:Hrun; simpl.
    + apply add_document_ok in Hrun
        as (m & ix & Henc & Hadd & -> & Hcalls & Hix & Hch & Hdocs & Hdisk).
      split; [|lia]. unfold get_document_chunks. rewrite Hch, filter_app.
      rewrite (filter_owner_none (chunk_records _ _ _)), app_nil_r; [done|].
      eapply Forall_impl; [apply chunk_records_owner|].
      intros c -> Heq. apply Hinj in Heq. lia.
    + apply add_document_raise in Hrun as (-> & _ & ->). split; [done|lia].
  - rewrite (files_current w Hw) in Hinit. injection Hinit as <-. done.
Qed.

Lemma steps_keep_chunks w w' j :
  embedder_ok -> uuid_ok -> consistent w -> j < calls w -> rtc step w w' ->
  get_document_chunks (self w') (uuid4 j) = get_document_chunks (self w) (uuid4 j).
Proof.
  intros Hemb Hinj Hw Hj Hrun.
  enough (Hgen : consistent w' /\ j < calls w' /\
            get_document_chunks (self w') (uuid4 j)
            = get_document_chunks (self w) (uuid4 j)) by apply Hgen.
  revert w' Hrun. apply rtc_ind_r; [done|].
  intros y z _ Hstep (Hy & Hjy & Heq).
  destruct (step_keeps_chunks y z j Hinj Hy Hjy Hstep) as [Hz Hjz].
  split; [eauto using consistent_step|]. split; [done|]. by rewrite Hz.
Qed.

(** The record of a fresh id appended to the documents is the one
    [get_document_by_id] finds. *)
Lemma get_document_by_id_new ix md doc :
  Forall (fun d => Document.id d <> Document.id doc) (documents md) ->
  get_document_by_id
    (mkRAGSystem ix (mkMetadata (chunks md) (documents md ++ [doc])))
    (Document.id doc) = Some doc.
Proof.
  intros Hnew. unfold get_document_by_id. simpl.
  rewrite list_find_app_r.
  - simpl. rewrite decide_True by done. done.
  - apply list_find_None. exact Hnew.
Qed.

End Ingest.

(** ** Searching *)

Section Searching.

Context {E : Collaborators}.

Lemma resolve_row cs dist r :
  resolve cs (dist, Z.of_nat r) = hit_of_row cs (dist, r).
Proof.
  unfold resolve, hit_of_row. simpl. rewrite Nat2Z.id.
  rewrite bool_decide_true by lia. simpl.
  destruct (cs !! r) as [chunk|] eqn:Hr.
  - apply lookup_lt_Some in Hr. rewrite bool_decide_true by lia. done.
  - by destruct (bool_decide _).
Qed.

Lemma resolve_no_label cs dist : resolve cs (dist, IndexFlatL2.no_label) = None.
Proof. done. Qed.

Lemma resolve_slots cs found n :
  omap (resolve cs)
    (map (fun h : Q * nat => (fst h, Z.of_nat (snd h))) found
       ++ replicate n (IndexFlatL2.FLT_MAX, IndexFlatL2.no_label))
  = omap (hit_of_row cs) found.
Proof.
  rewrite omap_app.
  replace (omap (resolve cs) (replicate n _)) with (@nil Hit.t).
  - rewrite app_nil_r. induction found as [|[dist r] found IH]; [done|].
    cbn [map omap list_omap fst snd]. rewrite resolve_row.
    cbn [map omap list_omap fst snd] in IH. by rewrite IH.
  - induction n as [|n IH]; [done|].
    cbn [replicate omap list_omap]. rewrite resolve_no_label. exact IH.
Qed.

(** [search] once the query is embedded: the rows the index found that
    have a chunk record, in the order of the index. *)
Lemma search_unfold s query k qv rest :
  encode [query] = Some (qv :: rest) ->
  search s query k
  = Ok (omap (hit_of_row (chunks (metadata s)))
          (IndexFlatL2.nearest (index s) (normalize_L2 qv) k)).
Proof.
  intros Henc. unfold search, _generate_embeddings. rewrite Henc. simpl.
  unfold IndexFlatL2.search. by rewrite resolve_slots.
Qed.

(** When every found row has a chunk record nothing is skipped. *)
Lemma hits_of_rows s q (found : list (Q * nat)) :
  Forall (fun h => fst h = row_distance (index s) q (snd h)
                   /\ snd h < length (chunks (metadata s))) found ->
  Forall2 (row_hit s q) (map snd found)
          (omap (hit_of_row (chunks (metadata s))) found).
Proof.
  induction 1 as [|[dist r] found [Hd Hr] _ IH].
  - constructor.
  - cbn [fst snd] in Hd, Hr.
    destruct (chunks (metadata s) !! r) as [chunk|] eqn:Hchunk; last first.
    { apply lookup_ge_None in Hchunk. lia. }
    cbn [map omap list_omap snd]. unfold hit_of_row at 1. cbn [fst snd].
    rewrite Hchunk.
    constructor; [|exact IH]. exists chunk. split; [done|]. by rewrite Hd.
Qed.

(** In a consistent world [search] reports every row the index found. *)
Lemma search_rows w query k qv rest :
  consistent w ->
  encode [query] = Some (qv :: rest) ->
  let found := IndexFlatL2.nearest (index (self w)) (normalize_L2 qv) k in
  exists hits,
    search (self w) query k = Ok hits /\
    length hits = length found /\
    Forall2 (row_hit (self w) (normalize_L2 qv)) (map snd found) hits.
Proof.
  intros Hw Henc found.
  destruct (nearest_spec (index (self w)) (normalize_L2 qv) k)
    as (_ & _ & _ & Hdist & _).
  rewrite <- (consistent_lengths w Hw) in Hdist.
  pose proof (hits_of_rows (self w) (normalize_L2 qv) found Hdist) as Hhits.
  eexists. split; [by apply (search_unfold _ _ _ qv rest)|]. split; [|exact Hhits].
  apply Forall2_length in Hhits. by rewrite length_map in Hhits.
Qed.

(** A row of the answer, looked up by position. *)
Lemma nearest_row_lookup ix q k i r :
  map snd (IndexFlatL2.nearest ix q k) !! i = Some r ->
  IndexFlatL2.nearest ix q k !! i = Some (row_distance ix q r, r).
Proof.
  change (map snd) with (fmap (M:=list) (@snd Q nat)).
  rewrite list_lookup_fmap. intros Hi.
  destruct (IndexFlatL2.nearest ix q k !! i) as [[dist r']|] eqn:Hh; [|done].
  injection Hi as <-.
  destruct (nearest_spec ix q k) as (_ & _ & _ & Hdist & _).
  rewrite Forall_lookup in Hdist. destruct (Hdist _ _ Hh) as [Hd _]. simpl in Hd.
  by rewrite Hd.
Qed.

Lemma score_of_positive dist : (0 <= dist)%Q -> (0 < score_of dist)%Q.
Proof.
  intros Hd. unfold score_of, Qdiv. rewrite Qmult_1_l.
  apply Qinv_lt_0_compat.
  apply Qlt_le_trans with (1 + 0)%Q; [reflexivity|].
  by apply Qplus_le_r.
Qed.

Lemma score_of_decreasing d1 d2 :
  (0 <= d1)%Q -> (d1 < d2)%Q -> (score_of d2 < score_of d1)%Q.
Proof.
  intros H1 H12. unfold score_of, Qdiv. rewrite !Qmult_1_l.
  assert (Hp1 : (0 < 1 + d1)%Q).
  { apply Qlt_le_trans with (1 + 0)%Q; [reflexivity|]. by apply Qplus_le_r. }
  assert (Hlt : (1 + d1 < 1 + d2)%Q) by (by apply Qplus_lt_r).
  apply (Qinv_lt_contravar (1 + d1) (1 + d2)); [exact Hp1| |exact Hlt].
  eapply Qlt_trans; eassumption.
Qed.


(** [ranked_before] is a strict total order of the rows. *)
Lemma ranked_before_asym ix q r1 r2 :
  ranked_before ix q r1 r2 -> ranked_before ix q r2 r1 -> False.
Proof.
  unfold ranked_before, before. cbn [fst snd].
  intros [Hlt|[Heq Hrow]] [Hlt'|[Heq' Hrow']].
  - exact (Qlt_irrefl _ (Qlt_trans _ _ _ Hlt Hlt')).
  - rewrite Heq' in Hlt. exact (Qlt_irrefl _ Hlt).
  - rewrite Heq in Hlt'. exact (Qlt_irrefl _ Hlt').
  - lia.
Qed.

Lemma ranked_before_total ix q r1 r2 :
  r1 <> r2 -> ranked_before ix q r1 r2 \/ ranked_before ix q r2 r1.
Proof.
  intros Hne. unfold ranked_before, before. cbn [fst snd].
  destruct (Q_dec (row_distance ix q r1) (row_distance ix q r2)) as [[Hlt|Hgt]|Heq].
  - left. by left.
  - right. by left.
  - destruct (Nat.lt_trichotomy r1 r2) as [Hlt|[->|Hgt]]; [|done|].
    + left. right. by split.
    + right. right. split; [by symmetry|done].
Qed.

(** The rows of the answer, in the order of the answer. *)
Lemma nearest_rows_sorted ix q k :
  StronglySorted (ranked_before ix q) (map snd (IndexFlatL2.nearest ix q k)).
Proof.
  destruct (nearest_spec ix q k) as (_ & Hsorted & _ & Hdist & _).
  induction Hsorted as [|h l Hl IH Hh]; [constructor|].
  apply Forall_cons in Hdist as [[Hd _] Hdist].
  cbn [map]. constructor; [by apply IH|].
  rewrite Forall_forall in Hh, Hdist.
  apply Forall_forall. intros r Hr.
  apply list_elem_of_In, in_map_iff in Hr as (h' & <- & Hin).
  apply list_elem_of_In in Hin.
  unfold ranked_before. destruct (Hdist _ Hin) as [<- _]. rewrite <- Hd.
  rewrite <- !surjective_pairing. by apply Hh.
Qed.

(** A stored row that the answer leaves out comes after every row of it. *)
Lemma nearest_rows_closed ix q k r r' :
  r ∈ map snd (IndexFlatL2.nearest ix q k) ->
  r' < IndexFlatL2.ntotal ix ->
  r' ∉ map snd (IndexFlatL2.nearest ix q k) ->
  ranked_before ix q r r'.
Proof.
  intros Hr Hr' Hout.
  destruct (nearest_spec ix q k) as (_ & _ & _ & Hdist & Hclosed).
  apply list_elem_of_In, in_map_iff in Hr as (h & <- & Hin).
  apply list_elem_of_In in Hin.
  rewrite Forall_forall in Hdist. destruct (Hdist _ Hin) as [Hd _].
  unfold ranked_before. rewrite <- Hd, <- surjective_pairing.
  by apply Hclosed.
Qed.

(** Two sorted lists of the same length, each closed downwards among the
    rows that satisfy [P], are the same list. *)
Lemma sorted_closed_unique (R : relation nat) (P : nat -> Prop) (l1 l2 : list nat) :
  (forall x y, R x y -> R y x -> False) ->
  (forall x y, x <> y -> R x y \/ R y x) ->
  length l1 = length l2 ->
  StronglySorted R l1 -> StronglySorted R l2 ->
  (forall x y, x ∈ l1 -> P y -> y ∉ l1 -> R x y) ->
  (forall x y, x ∈ l2 -> P y -> y ∉ l2 -> R x y) ->
  Forall P l1 -> Forall P l2 ->
  l1 = l2.
Proof.
  intros Hasym Htotal. revert P l2.
  induction l1 as [|a t1 IH]; intros P [|b t2] Hlen Hs1 Hs2 Hc1 Hc2 Hp1 Hp2;
    [done|done|done|].
  apply StronglySorted_inv in Hs1 as [Hs1 Ha]. apply StronglySorted_inv in Hs2 as [Hs2 Hb].
  apply Forall_cons in Hp1 as [Hpa Hp1]. apply Forall_cons in Hp2 as [Hpb Hp2].
  rewrite Forall_forall in Ha, Hb.
  assert (Hab : a = b).
  { destruct (decide (a = b)) as [|Hne]; [done|]. exfalso.
    destruct (Htotal a b Hne) as [Hlt|Hlt].
    - destruct (decide (a ∈ b :: t2)) as [Hin|Hout].
      + apply elem_of_cons in Hin as [|Hin]; [done|]. eauto.
      + apply (Hasym a b Hlt). apply Hc2; [left|done|done].
    - destruct (decide (b ∈ a :: t1)) as [Hin|Hout].
      + apply elem_of_cons in Hin as [|Hin]; [done|]. eauto.
      + apply (Hasym b a Hlt). apply Hc1; [left|done|done]. }
  subst b. f_equal.
  apply (IH (fun y => P y /\ R a y)); [by injection Hlen|done|done| | | |].
  - intros x y Hx [Hy Hay] Hout. apply Hc1; [by right|done|].
    intros [->|Hin]%elem_of_cons; [by eapply Hasym|done].
  - intros x y Hx [Hy Hay] Hout. apply Hc2; [by right|done|].
    intros [->|Hin]%elem_of_cons; [by eapply Hasym|done].
  - rewrite Forall_forall in Hp1. apply Forall_forall. intros x Hx. split; eauto.
  - rewrite Forall_forall in Hp2. apply Forall_forall. intros x Hx. split; eauto.
Qed.

End Searching.

(** ** Rounding to float32 *)

Section Rounding.

Local Open Scope Z_scope.

















End Rounding.

(** ** Facts about the collaborators used to run the model *)

Lemma tally_inj i j : tally i = tally j -> i = j.
Proof.
  revert j. induction i as [|i IH]; intros [|j]; simpl; try done.
  intros [= H]. f_equal. by apply IH.
Qed.

Lemma demo_embedder_ok : @embedder_ok demo.
Proof. intros texts m [= <-]. apply length_map. Qed.

Lemma demo_uuid_ok : @uuid_ok demo.
Proof. intros i j. apply tally_inj. Qed.

Lemma offline_uuid_ok : @uuid_ok offline.
Proof. intros i j. apply tally_inj. Qed.

Lemma reachable_ingest `{Collaborators} w document_text summary :
  reachable w -> reachable (snd (add_document w document_text summary)).
Proof. intros Hw. eapply rtc_r; [exact Hw|]. constructor. Qed.

Lemma reachable_boot `{Collaborators} : reachable boot.
Proof. apply rtc_refl. Qed.

(** ** The properties of the specification *)

Section Properties.

Context {E : Collaborators}.

(** C1. In every reachable world the chunk_id values of the metadata's
    chunks are 0, 1, ..., ntotal - 1 in list order, so each is the row index
    of its embedding in the index; a successful [add_document] appends the
    chunk records numbered from [len(chunks)] and the normalized embeddings
    in the same order, the i-th new chunk and the i-th new row landing at the
    same position, and the numbering is dense again afterwards. *)
Theorem chunk_id_is_row_index (w : World) :
  embedder_ok -> reachable w ->
  map Chunk.chunk_id (chunks (metadata (self w)))
    = seq 0 (IndexFlatL2.ntotal (index (self w)))
  /\ forall document_text summary doc_id w',
      add_document w document_text summary = (Ok doc_id, w') ->
      let n := length (chunks (metadata (self w))) in
      exists m,
        encode (split_text document_text) = Some m /\
        IndexFlatL2.xb (index (self w'))
          = IndexFlatL2.xb (index (self w)) ++ map normalize_L2 m /\
        chunks (metadata (self w'))
          = chunks (metadata (self w))
            ++ chunk_records doc_id n (split_text document_text) /\
        map Chunk.chunk_id (chunk_records doc_id n (split_text document_text))
          = seq n (length (split_text document_text)) /\
        (forall i text, split_text document_text !! i = Some text ->
           exists v, m !! i = Some v /\
             IndexFlatL2.xb (index (self w')) !! (n + i) = Some (normalize_L2 v) /\
             chunks (metadata (self w')) !! (n + i)
               = Some (Chunk.Build text doc_id (n + i) i)) /\
        map Chunk.chunk_id (chunks (metadata (self w')))
          = seq 0 (IndexFlatL2.ntotal (index (self w'))).
Proof.
  intros Hemb Hreach.
  pose proof (reachable_consistent w Hemb Hreach) as Hw.
  split; [apply Hw|].
  intros document_text summary doc_id w' Hrun n.
  assert (Hw' : consistent w').
  { eapply consistent_step; [exact Hemb|exact Hw|].
    replace w' with (snd (add_document w document_text summary)) by (by rewrite Hrun).
    constructor. }
  pose proof (consistent_lengths w Hw) as Hn.
  apply add_document_ok in Hrun
    as (m & ix & Henc & Hadd & -> & Hcalls & Hix & Hch & Hdocs & Hdisk).
  apply index_add_ok in Hadd as [Hxb _].
  exists m. rewrite Hix, Hxb, Hch. repeat split; try done.
  - apply chunk_records_ids.
  - intros i text Hi.
    pose proof (Hemb _ _ Henc) as Hlen.
    destruct (m !! i) as [v|] eqn:Hv; last first.
    { apply lookup_ge_None in Hv. apply lookup_lt_Some in Hi. lia. }
    exists v. split; [done|]. split.
    + unfold n. rewrite Hn. unfold IndexFlatL2.ntotal.
      rewrite lookup_app_r by lia.
      replace (_ + i - _) with i by lia.
      change (map normalize_L2 m) with (normalize_L2 <$> m).
      by rewrite list_lookup_fmap, Hv.
    + rewrite lookup_app_r by (unfold n; lia).
      replace (n + i - _) with i by (unfold n; lia).
      unfold chunk_records. by rewrite list_lookup_imap, Hi.
  - rewrite <- Hix, <- Hch. apply Hw'.
Qed.

(** C3. When the embedder raises during an ingest, [add_document] raises
    that error and the corpus is as before: the object [self] (index rows,
    chunk metadata, document records) and the files are unchanged, so the
    row count and the answer of [get_all_documents] are the same and no
    document was recorded. *)
Theorem add_document_embedder_failure (w : World) (document_text summary : string) :
  encode (split_text document_text) = None ->
  exists w',
    add_document w document_text summary = (Raise EmbedderError, w') /\
    self w' = self w /\
    disk w' = disk w /\
    IndexFlatL2.ntotal (index (self w')) = IndexFlatL2.ntotal (index (self w)) /\
    chunks (metadata (self w')) = chunks (metadata (self w)) /\
    documents (metadata (self w')) = documents (metadata (self w)) /\
    get_all_documents (self w') = get_all_documents (self w).
Proof.
  intros Hfail. unfold add_document, _generate_embeddings. rewrite Hfail.
  eexists. split; [reflexivity|]. simpl. done.
Qed.

(** C7. Saving the corpus and starting again from the same data directory
    gives the same corpus: [get_all_documents], [get_document_chunks] for
    every id and [search] for every query and k answer as before. *)
Theorem save_load_round_trip (s : RAGSystem) (dk : Disk) :
  exists s',
    __init__ (_save s dk) = Ok s' /\
    get_all_documents s' = get_all_documents s /\
    (forall doc_id, get_document_chunks s' doc_id = get_document_chunks s doc_id) /\
    (forall query k, search s' query k = search s query k).
Proof.
  exists s. split; [apply init_after_save|]. done.
Qed.

(** C10. [get_document_chunks] with an id that owns no stored chunk returns
    the empty list; so does any id on the empty corpus. *)
Theorem get_document_chunks_unknown_id (s : RAGSystem) (doc_id : string) :
  Forall (fun chunk => Chunk.document_id chunk <> doc_id) (chunks (metadata s)) ->
  get_document_chunks s doc_id = []
  /\ get_document_chunks fresh doc_id = [].
Proof.
  intros Hnone. split; [|done].
  unfold get_document_chunks.
  induction Hnone as [|c cs Hc _ IH]; [done|].
  rewrite filter_cons_False; done.
Qed.


(** C8. After a successful ingest of a text cut into n chunks, and after
    any further steps of the service, [get_document_chunks] of the returned
    id is exactly the n chunk records of that ingest, in chunking order:
    their texts are the chunks, their positions are 0, 1, ..., n - 1 and
    their chunk_ids are the ones listed in the document record. *)
Theorem get_document_chunks_of_ingested
    (w w1 w2 : World) (document_text summary doc_id : string) :
  embedder_ok -> uuid_ok -> reachable w ->
  add_document w document_text summary = (Ok doc_id, w1) ->
  rtc step w1 w2 ->
  let cs := split_text document_text in
  let start_idx := length (chunks (metadata (self w))) in
  get_document_chunks (self w2) doc_id = chunk_records doc_id start_idx cs /\
  length (get_document_chunks (self w2) doc_id) = length cs /\
  map Chunk.text (get_document_chunks (self w2) doc_id) = cs /\
  map Chunk.position (get_document_chunks (self w2) doc_id) = seq 0 (length cs) /\
  map Chunk.chunk_id (get_document_chunks (self w2) doc_id) = seq start_idx (length cs).
Proof.
  intros Hemb Hinj Hreach Hrun Hlater cs start_idx.
  pose proof (reachable_consistent w Hemb Hreach) as Hw.
  assert (Hw1 : consistent w1).
  { eapply consistent_step; [exact Hemb|exact Hw|].
    replace w1 with (snd (add_document w document_text summary)) by (by rewrite Hrun).
    constructor. }
  apply add_document_ok in Hrun
    as (m & ix & Henc & Hadd & -> & Hcalls & Hix & Hch & Hdocs & Hdisk).
  assert (Hget : get_document_chunks (self w2) (uuid4 (calls w))
                 = chunk_records (uuid4 (calls w)) start_idx cs).
  { rewrite (steps_keep_chunks w1 w2 (calls w)); try done; [|lia].
    unfold get_document_chunks. rewrite Hch, filter_app.
    rewrite filter_owner_none by (apply consistent_not_owner; done).
    rewrite filter_owner_all by apply chunk_records_owner. done. }
  rewrite Hget. split; [done|].
  split; [apply length_imap|]. split; [|split].
  - unfold chunk_records.
    change (map Chunk.text) with (fmap (M:=list) Chunk.text).
    rewrite fmap_imap. rewrite (imap_ext _ (const id)) by done.
    by rewrite imap_const, list_fmap_id.
  - apply chunk_records_positions.
  - apply chunk_records_ids.
Qed.

(** C2. In every reachable world with n stored rows, for a query the
    embedder accepts and k > 0, [search] returns min(k, n) hits: the hits of
    distinct stored rows, in ascending order of squared distance to the
    normalized query, no row left out being closer than a row returned; all
    n rows when n < k, and the empty list when the corpus is empty. *)
Theorem search_returns_k_nearest (w : World) (query : string) (k : nat) (qv : vec) :
  embedder_ok -> reachable w -> 0 < k ->
  encode [query] = Some [qv] ->
  let s := self w in
  let q := normalize_L2 qv in
  let n := IndexFlatL2.ntotal (index s) in
  exists (rows : list nat) (hits : list Hit.t),
    search s query k = Ok hits /\
    length hits = Nat.min k n /\
    Forall2 (row_hit s q) rows hits /\
    NoDup rows /\
    Forall (fun r => r < n /\ exists u, IndexFlatL2.xb (index s) !! r = Some (normalize_L2 u)) rows /\
    (forall i j ri rj, i < j -> rows !! i = Some ri -> rows !! j = Some rj ->
       (row_distance (index s) q ri <= row_distance (index s) q rj)%Q) /\
    (forall r r', r ∈ rows -> r' < n -> r' ∉ rows ->
       (row_distance (index s) q r <= row_distance (index s) q r')%Q) /\
    (n < k -> forall r, r < n -> r ∈ rows) /\
    (n = 0 -> hits = []).
Proof.
  intros Hemb Hreach Hk Henc s q n.
  pose proof (reachable_consistent w Hemb Hreach) as Hw.
  destruct (search_rows w query k qv [] Hw Henc) as (hits & Hrun & Hlen & Hhits).
  destruct (nearest_spec (index s) q k)
    as (Hcount & Hsorted & Hnodup & Hdist & Hout).
  exists (map snd (IndexFlatL2.nearest (index s) q k)), hits.
  split; [exact Hrun|]. split; [by rewrite Hlen|]. split; [exact Hhits|].
  split; [exact Hnodup|]. split.
  { apply Forall_forall. intros r Hr.
    apply list_elem_of_fmap in Hr as (h & -> & Hh).
    rewrite Forall_forall in Hdist. destruct (Hdist h Hh) as [_ Hlt].
    split; [exact Hlt|].
    destruct (lookup_lt_is_Some_2 (IndexFlatL2.xb (index s)) (snd h) Hlt) as [v Hv].
    pose proof (rows_normalized w Hw) as Hnorm. rewrite Forall_lookup in Hnorm.
    destruct (Hnorm _ _ Hv) as [u ->]. by exists u. }
  split.
  { intros i j ri rj Hij Hi Hj.
    apply nearest_row_lookup in Hi, Hj.
    by destruct (nearest_order _ _ _ _ _ _ _ Hij Hi Hj) as [Hle _]. }
  split.
  { intros r r' Hr Hr' Hnotin.
    apply list_elem_of_fmap in Hr as (h & -> & Hh).
    rewrite Forall_forall in Hdist. destruct (Hdist h Hh) as [<- _].
    destruct (Hout h r' Hh Hr' Hnotin) as [Hlt|[Heq _]]; simpl in *.
    - by apply Qlt_le_weak.
    - rewrite Heq. apply Qle_refl. }
  split.
  { intros Hnk r Hr. apply nearest_all; [unfold n in Hnk; lia|exact Hr]. }
  intros Hn. apply nil_length_inv. unfold n, s, q in *. rewrite Hlen, Hcount. lia.
Qed.

(** C9. In every reachable world [search] answers with min(k, n) hits, the
    hits of rows ranked by distance and, at exactly equal distance, by
    insertion order.  Two returned rows at the same distance appear with the
    smaller row index first.  The earlier row wins at the cut-off too:
    whenever a row is returned, every stored row of the same distance that
    was inserted before it is returned as well, ranked before it.  This
    order leaves no choice: any list of min(k, n) stored rows that is ranked
    this way and leaves out only rows that come after its own is the list
    of rows [search] answers with. *)
Theorem search_ties_by_insertion_order (w : World) (query : string) (k : nat) (qv : vec) :
  embedder_ok -> reachable w ->
  encode [query] = Some [qv] ->
  let s := self w in
  let q := normalize_L2 qv in
  let n := IndexFlatL2.ntotal (index s) in
  exists (rows : list nat) (hits : list Hit.t),
    search s query k = Ok hits /\
    length hits = Nat.min k n /\
    Forall2 (row_hit s q) rows hits /\
    (forall i j ri rj, rows !! i = Some ri -> rows !! j = Some rj ->
       (row_distance (index s) q ri == row_distance (index s) q rj)%Q ->
       (i < j <-> ri < rj)) /\
    (forall j r r', rows !! j = Some r -> r' < r ->
       (row_distance (index s) q r' == row_distance (index s) q r)%Q ->
       exists i, i < j /\ rows !! i = Some r') /\
    (forall rows' : list nat,
       length rows' = Nat.min k n ->
       Forall (fun r => r < n) rows' ->
       StronglySorted (ranked_before (index s) q) rows' ->
       (forall r r', r ∈ rows' -> r' < n -> r' ∉ rows' ->
          ranked_before (index s) q r r') ->
       rows' = rows).
Proof.
  intros Hemb Hreach Henc s q n.
  pose proof (reachable_consistent w Hemb Hreach) as Hw.
  destruct (search_rows w query k qv [] Hw Henc) as (hits & Hrun & Hlen & Hhits).
  destruct (nearest_spec (index s) q k) as (Hcount & _ & _ & Hdist & _).
  set (rows := map snd (IndexFlatL2.nearest (index s) q k)).
  assert (Hfwd : forall i j ri rj, i < j ->
    rows !! i = Some ri -> rows !! j = Some rj ->
    (row_distance (index s) q ri == row_distance (index s) q rj)%Q -> ri < rj).
  { intros i j ri rj Hij Hi Hj Heq.
    apply nearest_row_lookup in Hi, Hj.
    destruct (nearest_order _ _ _ _ _ _ _ Hij Hi Hj) as [_ Htie].
    by apply Htie. }
  assert (Htie : forall i j ri rj, rows !! i = Some ri -> rows !! j = Some rj ->
    (row_distance (index s) q ri == row_distance (index s) q rj)%Q ->
    (i < j <-> ri < rj)).
  { intros i j ri rj Hi Hj Heq. split; [by eauto|].
    intros Hrow. destruct (Nat.lt_trichotomy i j) as [Hlt|[->|Hgt]]; [done| |].
    - rewrite Hi in Hj. injection Hj as ->. lia.
    - symmetry in Heq. pose proof (Hfwd j i rj ri Hgt Hj Hi Heq). lia. }
  assert (Hstored : Forall (fun r => r < n) rows).
  { unfold rows. apply Forall_forall. intros r Hr.
    apply list_elem_of_In, in_map_iff in Hr as (h & <- & Hin).
    apply list_elem_of_In in Hin. rewrite Forall_forall in Hdist.
    by destruct (Hdist _ Hin) as [_ Hh]. }
  exists rows, hits.
  split; [exact Hrun|]. split; [unfold n, s, q; by rewrite Hlen|].
  split; [exact Hhits|]. split; [exact Htie|]. split.
  - intros j r r' Hj Hrr' Heq.
    assert (Hr : r ∈ rows) by (by eapply list_elem_of_lookup_2).
    assert (Hr' : r' ∈ rows).
    { destruct (decide (r' ∈ rows)) as [|Hout]; [done|]. exfalso.
      rewrite Forall_forall in Hstored. pose proof (Hstored _ Hr) as Hrn.
      assert (Hr'n : r' < n) by lia.
      destruct (nearest_rows_closed _ _ _ _ _ Hr Hr'n Hout) as [Hlt|[_ Hrow]];
        cbn [fst snd] in *; [|lia].
      rewrite Heq in Hlt. exact (Qlt_irrefl _ Hlt). }
    apply list_elem_of_lookup_1 in Hr' as [i Hi]. exists i. split; [|exact Hi].
    by apply (Htie i j r' r Hi Hj Heq).
  - intros rows' Hlen' Hstored' Hsorted' Hclosed'.
    apply (sorted_closed_unique (ranked_before (index s) q) (fun r => r < n)).
    + apply ranked_before_asym.
    + apply ranked_before_total.
    + unfold rows. rewrite length_map. by rewrite Hlen'.
    + exact Hsorted'.
    + apply nearest_rows_sorted.
    + exact Hclosed'.
    + intros r r'. apply nearest_rows_closed.
    + exact Hstored'.
    + exact Hstored.
Qed.

(** C4 (as the code has it). When the index answers with a row index that
    has no chunk record, [search] raises nothing: it returns the hits of
    the answered rows that lie inside the chunk list, in the order of the
    index, and leaves the row outside it out. *)
Theorem search_skips_rows_without_metadata
    (s : RAGSystem) (query : string) (k : nat) (qv : vec) (rest : list vec) :
  encode [query] = Some (qv :: rest) ->
  let cs := chunks (metadata s) in
  exists hits,
    search s query k = Ok hits /\
    hits = omap (resolve cs) (IndexFlatL2.search (index s) (normalize_L2 qv) k) /\
    (forall dist idx, (Z.of_nat (length cs) <= idx)%Z -> resolve cs (dist, idx) = None) /\
    (forall dist idx, (0 <= idx < Z.of_nat (length cs))%Z ->
       exists chunk,
         cs !! Z.to_nat idx = Some chunk /\
         resolve cs (dist, idx)
         = Some (Hit.Build (Chunk.text chunk) (Chunk.document_id chunk) (score_of dist))).
Proof.
  intros Henc cs. eexists. split.
  { unfold search, _generate_embeddings. rewrite Henc. reflexivity. }
  split; [reflexivity|]. split.
  - intros dist idx Hidx. unfold resolve.
    rewrite (bool_decide_false (idx < _)%Z) by lia. by rewrite andb_false_r.
  - intros dist idx [Hlo Hhi]. unfold resolve.
    rewrite !bool_decide_true by lia. simpl.
    destruct (cs !! Z.to_nat idx) as [chunk|] eqn:Hchunk.
    + by exists chunk.
    + apply lookup_ge_None in Hchunk. lia.
Qed.


End Properties.

(** ** The model run on concrete collaborators *)

(** C4, counterexample. Started on [torn_disk], the engine holds one row
    and no chunk record; for the query "q" and k = 1 the index answers row 0,
    which has no metadata, and [search] returns the empty list: no error. *)
Lemma search_does_not_fail_loudly :
  @__init__ demo torn_disk = Ok torn /\
  IndexFlatL2.search (index torn) [1%Q; 1%Q] 1 = [(1%Q, 0%Z)] /\
  chunks (metadata torn) !! 0 = None /\
  @search demo torn "q" 1 = Ok [] /\
  ~ @search_fails_loudly demo.
Proof.
  assert (Hrun : @search demo torn "q" 1 = Ok []) by reflexivity.
  repeat split; try reflexivity.
  intros Hloud.
  assert (Hslot : (1%Q, 0%Z) ∈ IndexFlatL2.search (index torn) [1%Q; 1%Q] 1)
    by apply list_elem_of_here.
  destruct (Hloud torn "q" 1 [1%Q; 1%Q] [] 1%Q 0%Z eq_refl Hslot) as [e He];
    [done|reflexivity|].
  rewrite Hrun in He. discriminate.
Qed.


(** The float32 numbers of the model are the ones they are meant to be. *)
Example float32_values :
  (Float32.value Float32.one == 1)%Q /\
  (Float32.value Float32.FLT_MAX == IndexFlatL2.FLT_MAX)%Q /\
  Float32.round Float32.FLT_MAX 1 = Float32.FLT_MAX /\
  Float32.add Float32.one Float32.FLT_MAX = Float32.FLT_MAX /\
  Float32.score Float32.FLT_MAX = (2 ^ 21)%Z.
Proof.
  repeat split; reflexivity.
Qed.

(** On every sampled distance, the score of the model is the score the
    IEEE 754 binary32 operations of the Standard Library compute. *)
Example float32_score_agrees_with_ieee :
  forallb (fun e => forallb (fun m => Float32.agree m e) Float32.mantissas)
          Float32.exponents = true /\
  forallb (fun m => Float32.agree m (-149)) Float32.subnormals = true.
Proof.
  split; vm_compute; reflexivity.
Qed.

Lemma demo_world1_reachable : @reachable demo demo_world1.
Proof. apply (@reachable_ingest demo), (@reachable_boot demo). Qed.

Lemma demo_world2_reachable : @reachable demo demo_world2.
Proof. apply (@reachable_ingest demo), demo_world1_reachable. Qed.

Lemma chunk_id_is_row_index_witness :
  @embedder_ok demo /\ @reachable demo demo_world2 /\
  map Chunk.chunk_id (chunks (metadata (self demo_world2)))
  = seq 0 (IndexFlatL2.ntotal (index (self demo_world2))).
Proof.
  split; [exact demo_embedder_ok|]. split; [exact demo_world2_reachable|].
  exact (proj1 (@chunk_id_is_row_index demo demo_world2
                  demo_embedder_ok demo_world2_reachable)).
Defined.

Lemma search_returns_k_nearest_witness :
  @encode demo ["Madrid"] = Some [[6%Q; 1%Q]] /\
  exists hits, @search demo (self demo_world2) "Madrid" 5 = Ok hits /\ length hits = 2.
Proof.
  split; [reflexivity|].
  destruct (@search_returns_k_nearest demo demo_world2 "Madrid" 5 [6%Q; 1%Q]
              demo_embedder_ok demo_world2_reachable (Nat.lt_0_succ 4) eq_refl)
    as (rows & hits & Hrun & Hlen & _).
  exists hits. split; [exact Hrun|exact Hlen].
Defined.

Lemma add_document_embedder_failure_witness :
  @encode offline (@split_text offline "London") = None /\
  exists w',
    @add_document offline (@boot offline) "London" "Artist: Adele"
      = (Raise EmbedderError, w') /\
    self w' = self (@boot offline) /\ disk w' = disk (@boot offline).
Proof.
  split; [reflexivity|].
  destruct (@add_document_embedder_failure offline (@boot offline)
              "London" "Artist: Adele" eq_refl)
    as (w' & Hrun & Hself & Hdisk & _).
  exists w'. split; [exact Hrun|]. split; [exact Hself|exact Hdisk].
Defined.

Lemma search_skips_rows_without_metadata_witness :
  @encode demo ["q"] = Some [[1%Q; 1%Q]] /\
  exists hits, @search demo torn "q" 1 = Ok hits.
Proof.
  split; [reflexivity|].
  destruct (@search_skips_rows_without_metadata demo torn "q" 1 [1%Q; 1%Q] [] eq_refl)
    as (hits & Hrun & _).
  exists hits. exact Hrun.
Defined.



Lemma get_document_chunks_of_ingested_witness :
  @add_document demo (@boot demo) "London" "Artist: Adele" = (Ok "#", demo_world1) /\
  rtc (@step demo) demo_world1 demo_world2 /\
  get_document_chunks (self demo_world2) "#" = [Chunk.Build "London" "#" 0 0].
Proof.
  assert (Hlater : rtc (@step demo) demo_world1 demo_world2).
  { apply rtc_once. exact (@step_ingest demo demo_world1 "Berlin" "Artist: BTS"). }
  split; [reflexivity|]. split; [exact Hlater|].
  exact (proj1 (@get_document_chunks_of_ingested demo (@boot demo) demo_world1 demo_world2
                  "London" "Artist: Adele" "#"
                  demo_embedder_ok demo_uuid_ok (@reachable_boot demo) eq_refl Hlater)).
Defined.

Lemma search_ties_by_insertion_order_witness :
  @encode demo ["Madrid"] = Some [[6%Q; 1%Q]] /\
  row_distance (index (self demo_world2)) [6%Q; 1%Q] 0 = 0%Q /\
  row_distance (index (self demo_world2)) [6%Q; 1%Q] 1 = 0%Q /\
  @search demo (self demo_world2) "Madrid" 1 = Ok [Hit.Build "London" "#" 1%Q] /\
  exists rows,
    Forall2 (row_hit (self demo_world2) [6%Q; 1%Q]) rows [Hit.Build "London" "#" 1%Q] /\
    [0] = rows.
Proof.
  assert (Hdemo : @search demo (self demo_world2) "Madrid" 1
                  = Ok [Hit.Build "London" "#" 1%Q]) by reflexivity.
  split; [reflexivity|]. split; [reflexivity|]. split; [reflexivity|].
  split; [exact Hdemo|].
  destruct (@search_ties_by_insertion_order demo demo_world2 "Madrid" 1 [6%Q; 1%Q]
              demo_embedder_ok demo_world2_reachable eq_refl)
    as (rows & hits & Hrun & _ & Hhits & _ & _ & Hunique).
  rewrite Hdemo in Hrun. injection Hrun as <-. exists rows. split; [exact Hhits|].
  apply Hunique.
  - reflexivity.
  - repeat constructor.
  - repeat constructor.
  - intros r r' Hr Hr' Hout. apply list_elem_of_singleton in Hr as ->.
    change (r' < 2) in Hr'. destruct r' as [|[|r']]; [| |lia].
    + exfalso. apply Hout. left.
    + right. split; [reflexivity|]. cbn [snd]. lia.
Defined.

Lemma get_document_chunks_unknown_id_witness :
  Forall (fun chunk => Chunk.document_id chunk <> "nobody")
         (chunks (metadata (self demo_world2))) /\
  get_document_chunks (self demo_world2) "nobody" = [].
Proof.
  assert (Hnone : Forall (fun chunk => Chunk.document_id chunk <> "nobody")
                         (chunks (metadata (self demo_world2)))).
  { repeat constructor; discriminate. }
  split; [exact Hnone|].
  exact (proj1 (@get_document_chunks_unknown_id demo (self demo_world2) "nobody" Hnone)).
Defined.

(** Both stored rows are at distance 0 from "Madrid": the row inserted first
    comes first, and the three empty slots of the index are dropped. *)
Example search_tie_example :
  @search demo (self demo_world2) "Madrid" 5
  = Ok [Hit.Build "London" "#" 1%Q; Hit.Build "Berlin" "i#" 1%Q].
Proof. reflexivity. Qed.

(** A closer row inserted later overtakes: "Rome" is at squared distance 4
    from "London" and "Berlin" and at distance 0 from the third document. *)
Example search_order_example :
  @search demo (self (snd (@add_document demo demo_world2 "Oslo" "Artist: a-ha"))) "Rome" 2
  = Ok [Hit.Build "Oslo" "ii#" 1%Q; Hit.Build "London" "#" (1 # 5)%Q].
Proof. reflexivity. Qed.

Example search_empty_corpus_example :
  @search demo (self (@boot demo)) "anything" 5 = Ok [].
Proof. reflexivity. Qed.

Example restart_example :
  @__init__ demo (disk demo_world2) = Ok (self demo_world2).
Proof. reflexivity. Qed.

(** ** The catalogue of documents *)

Section Catalogue.

Context {E : Collaborators}.

Lemma catalogued_fresh : catalogued fresh.
Proof. split; simpl; try done; constructor. Qed.

Lemma catalogued_step w w' :
  uuid_ok -> consistent w -> catalogued (self w) -> step w w' -> catalogued (self w').
Proof.
  intros Hinj Hw [Hnd Hcover Hown Hstored] Hstep.
  destruct Hstep as [w document_text summary | w s Hinit].
  - destruct (add_document w document_text summary) as [[doc_id|e] w'] eqn:Hrun; simpl.
    + apply add_document_ok in Hrun
        as (m & ix & Henc & Hadd & -> & Hcalls & Hix & Hch & Hdocs & Hdisk).
      pose proof (consistent_not_document w (calls w) Hinj Hw (Nat.le_refl _)) as Hnew.
      pose proof (consistent_not_owner w (calls w) Hinj Hw (Nat.le_refl _)) as Hnewc.
      split.
      * rewrite Hdocs, map_app. simpl. apply NoDup_app. split; [exact Hnd|]. split.
        -- intros x Hx Hx'. apply list_elem_of_singleton in Hx'. subst x.
           apply list_elem_of_fmap in Hx as (doc & Hid & Hdoc).
           rewrite Forall_forall in Hnew. by apply (Hnew doc Hdoc).
        -- apply NoDup_singleton.
      * rewrite Hdocs, Hch, map_app, concat_app. simpl.
        rewrite Hcover, app_nil_r, length_app.
        unfold chunk_records. rewrite length_imap. by rewrite seq_app.
      * rewrite Hdocs. apply Forall_app. split.
        -- rewrite Forall_forall in Hown |- *. intros doc Hdoc.
           rewrite <- (Hown doc Hdoc). unfold get_document_chunks.
           rewrite Hch, filter_app.
           rewrite (filter_owner_none (chunk_records _ _ _)); [by rewrite app_nil_r|].
           eapply Forall_impl; [apply chunk_records_owner|].
           intros c -> Heq. rewrite Forall_forall in Hnew. by apply (Hnew doc Hdoc).
        -- constructor; [|constructor]. simpl. unfold get_document_chunks.
           rewrite Hch, filter_app.
           rewrite filter_owner_none by exact Hnewc.
           rewrite filter_owner_all by apply chunk_records_owner.
           apply chunk_records_ids.
      * rewrite Hch, Hdocs, map_app. apply Forall_app. split.
        -- eapply Forall_impl; [exact Hstored|]. intros c Hc.
           apply elem_of_app. by left.
        -- eapply Forall_impl; [apply chunk_records_owner|]. intros c ->.
           apply elem_of_app. right. simpl. apply list_elem_of_here.
    + apply add_document_raise in Hrun as (-> & _ & _). by split.
  - rewrite (files_current w Hw) in Hinit. injection Hinit as <-. by split.
Qed.

Lemma reachable_catalogued w :
  embedder_ok -> uuid_ok -> reachable w -> catalogued (self w).
Proof.
  intros Hemb Hinj. unfold reachable.
  enough (Hgen : forall w, rtc step boot w -> consistent w /\ catalogued (self w))
    by (intros Hw; apply (Hgen w Hw)).
  apply rtc_ind_r.
  - split; [apply consistent_boot|apply catalogued_fresh].
  - intros y z _ Hstep [Hy Hcat]. split; eauto using consistent_step, catalogued_step.
Qed.

(** With distinct ids, looking a stored record up by its id finds that
    record. *)
Lemma list_find_by_id (docs : list Document.t) (doc : Document.t) :
  NoDup (map Document.id docs) -> doc ∈ docs ->
  exists i, list_find (fun d => Document.id d = Document.id doc) docs = Some (i, doc).
Proof.
  induction docs as [|d docs IH]; intros Hnd Hin; [by apply not_elem_of_nil in Hin|].
  simpl in Hnd. apply NoDup_cons in Hnd as [Hd Hnd].
  apply elem_of_cons in Hin as [->|Hin].
  - exists 0. simpl. by rewrite decide_True.
  - destruct (IH Hnd Hin) as [i Hi]. exists (S i). simpl.
    rewrite decide_False.
    + by rewrite Hi.
    + intros Heq. apply Hd. rewrite Heq.
      by apply (list_elem_of_fmap_2 Document.id).
Qed.

(** The owner of a stored chunk is a stored document that lists it. *)
Lemma chunk_owner_lookup (s : RAGSystem) (chunk : Chunk.t) :
  catalogued s -> chunk ∈ chunks (metadata s) ->
  exists doc,
    get_document_by_id s (Chunk.document_id chunk) = Some doc /\
    Document.id doc = Chunk.document_id chunk /\
    Chunk.chunk_id chunk ∈ Document.chunk_ids doc.
Proof.
  intros [Hnd Hcover Hown Hstored] Hchunk.
  rewrite Forall_forall in Hstored. pose proof (Hstored chunk Hchunk) as Hid.
  apply list_elem_of_fmap in Hid as (doc & Hid & Hdoc).
  destruct (list_find_by_id _ doc Hnd Hdoc) as [i Hi].
  exists doc. split; [|split; [done|]].
  - unfold get_document_by_id. rewrite Hid. by rewrite Hi.
  - rewrite Forall_forall in Hown. rewrite <- (Hown doc Hdoc).
    apply (list_elem_of_fmap_2 Chunk.chunk_id).
    unfold get_document_chunks. apply list_elem_of_filter. by split.
Qed.

End Catalogue.

(** ** Further properties of the corpus *)

Section Corpus.

Context {E : Collaborators}.

Lemma get_document_by_id_None (s : RAGSystem) (doc_id : string) :
  get_document_by_id s doc_id = None <->
  Forall (fun doc => Document.id doc <> doc_id) (documents (metadata s)).
Proof.
  unfold get_document_by_id. split.
  - intros Hnone. destruct (list_find _ _) as [[i d]|] eqn:Hi; [done|].
    by apply list_find_None in Hi.
  - intros Hall.
    rewrite (proj2 (list_find_None (fun doc => Document.id doc = doc_id) _) Hall).
    done.
Qed.

(** X1. [get_document_by_id] is a linear search: what it finds is a stored
    record carrying the id, and it answers [None] exactly when no stored
    record carries it. *)
Theorem get_document_by_id_spec (s : RAGSystem) (doc_id : string) :
  (forall doc, get_document_by_id s doc_id = Some doc ->
     doc ∈ get_all_documents s /\ Document.id doc = doc_id) /\
  (get_document_by_id s doc_id = None <->
     Forall (fun doc => Document.id doc <> doc_id) (get_all_documents s)).
Proof.
  split; [|apply get_document_by_id_None].
  unfold get_document_by_id, get_all_documents.
  intros doc Hfind.
  destruct (list_find _ _) as [[i d]|] eqn:Hi; simpl in Hfind; [|done].
  injection Hfind as ->. apply list_find_Some in Hi as (Hi & Hid & _).
  split; [by eapply list_elem_of_lookup_2|done].
Qed.

(** One step of the service keeps every stored record: the chunk list, the
    document list and the rows of the index only grow at the end. *)
Lemma step_extends w w' :
  consistent w -> step w w' ->
  chunks (metadata (self w)) `prefix_of` chunks (metadata (self w')) /\
  documents (metadata (self w)) `prefix_of` documents (metadata (self w')) /\
  IndexFlatL2.xb (index (self w)) `prefix_of` IndexFlatL2.xb (index (self w')).
Proof.
  intros Hw Hstep. destruct Hstep as [w document_text summary | w s Hinit].
  - destruct (add_document w document_text summary) as [[doc_id|e] w'] eqn:Hrun; simpl.
    + apply add_document_ok in Hrun
        as (m & ix & Henc & Hadd & -> & Hcalls & Hix & Hch & Hdocs & Hdisk).
      apply index_add_ok in Hadd as [Hxb _].
      rewrite Hch, Hdocs, Hix, Hxb. repeat split; by apply prefix_app_r.
    + by apply add_document_raise in Hrun as (-> & _ & _).
  - rewrite (files_current w Hw) in Hinit. by injection Hinit as <-.
Qed.

Lemma steps_extend w w' :
  embedder_ok -> consistent w -> rtc step w w' ->
  consistent w' /\
  chunks (metadata (self w)) `prefix_of` chunks (metadata (self w')) /\
  documents (metadata (self w)) `prefix_of` documents (metadata (self w')) /\
  IndexFlatL2.xb (index (self w)) `prefix_of` IndexFlatL2.xb (index (self w')).
Proof.
  intros Hemb Hw. revert w'. apply rtc_ind_r; [done|].
  intros y z _ Hstep (Hy & Hc & Hd & Hx).
  destruct (step_extends y z Hy Hstep) as (Hc' & Hd' & Hx').
  split; [eauto using consistent_step|].
  repeat split; by etrans.
Qed.

(** X2. The service is append-only: along any run, what was stored stays stored,
    in place; the counts reported by [get_statistics] never go down. *)
Theorem corpus_is_append_only (w w' : World) :
  embedder_ok -> reachable w -> rtc step w w' ->
  chunks (metadata (self w)) `prefix_of` chunks (metadata (self w')) /\
  get_all_documents (self w) `prefix_of` get_all_documents (self w') /\
  IndexFlatL2.xb (index (self w)) `prefix_of` IndexFlatL2.xb (index (self w')) /\
  Statistics.num_documents (get_statistics (self w))
    <= Statistics.num_documents (get_statistics (self w')) /\
  Statistics.num_chunks (get_statistics (self w))
    <= Statistics.num_chunks (get_statistics (self w')).
Proof.
  intros Hemb Hreach Hrun.
  destruct (steps_extend w w' Hemb (reachable_consistent w Hemb Hreach) Hrun)
    as (_ & Hc & Hd & Hx).
  repeat split; try done; simpl; by apply prefix_length.
Qed.

Lemma reachable_after w w1 w2 document_text summary doc_id :
  reachable w ->
  add_document w document_text summary = (Ok doc_id, w1) ->
  rtc step w1 w2 ->
  reachable w1 /\ reachable w2.
Proof.
  intros Hreach Hrun Hlater.
  assert (Hw1 : reachable w1).
  { replace w1 with (snd (add_document w document_text summary)) by (by rewrite Hrun).
    by apply reachable_ingest. }
  split; [exact Hw1|]. unfold reachable in *. by etrans.
Qed.

(** X3. The record of a successful ingest can be fetched by the returned id, at
    once and after any further ingests and restarts: it carries the summary
    passed in and the chunk_ids start, ..., start + n - 1. *)
Theorem get_document_by_id_of_ingested
    (w w1 w2 : World) (document_text summary doc_id : string) :
  embedder_ok -> uuid_ok -> reachable w ->
  add_document w document_text summary = (Ok doc_id, w1) ->
  rtc step w1 w2 ->
  get_document_by_id (self w2) doc_id
  = Some (Document.Build doc_id summary (now (calls w))
            (seq (length (chunks (metadata (self w))))
                 (length (split_text document_text)))).
Proof.
  intros Hemb Hinj Hreach Hrun Hlater.
  destruct (reachable_after _ _ _ _ _ _ Hreach Hrun Hlater) as [Hw1 Hw2].
  destruct (steps_extend w1 w2 Hemb (reachable_consistent w1 Hemb Hw1) Hlater)
    as (_ & _ & [later Hdocs2] & _).
  apply add_document_ok in Hrun
    as (m & ix & Henc & Hadd & -> & Hcalls & Hix & Hch & Hdocs & Hdisk).
  set (doc := Document.Build (uuid4 (calls w)) summary (now (calls w))
                (seq (length (chunks (metadata (self w))))
                     (length (split_text document_text)))) in *.
  assert (Hin : doc ∈ documents (metadata (self w2))).
  { rewrite Hdocs2, Hdocs. apply elem_of_app. left. apply elem_of_app. right.
    apply list_elem_of_here. }
  destruct (list_find_by_id _ doc
              (document_ids_distinct _ (reachable_catalogued w2 Hemb Hinj Hw2)) Hin)
    as [i Hi].
  unfold get_document_by_id. simpl in Hi. by rewrite Hi.
Qed.

(** X4. In every reachable world the stored documents have pairwise distinct
    ids, so each record listed by [get_all_documents] is the one
    [get_document_by_id] returns for its id. *)
Theorem document_ids_are_unique (w : World) :
  embedder_ok -> uuid_ok -> reachable w ->
  NoDup (map Document.id (get_all_documents (self w))) /\
  forall doc, doc ∈ get_all_documents (self w) ->
    get_document_by_id (self w) (Document.id doc) = Some doc.
Proof.
  intros Hemb Hinj Hreach.
  pose proof (document_ids_distinct _ (reachable_catalogued w Hemb Hinj Hreach)) as Hnd.
  split; [exact Hnd|]. intros doc Hdoc.
  destruct (list_find_by_id _ doc Hnd Hdoc) as [i Hi].
  unfold get_document_by_id. by rewrite Hi.
Qed.

(** X5. In every reachable world the chunk_ids lists of the documents, taken in
    insertion order, are 0, 1, ..., N - 1 with N the number of chunks: every
    chunk belongs to exactly one stored document, the chunks
    [get_document_chunks] returns for a document are the ones its record
    lists, and the owner of every chunk can be fetched by id. *)
Theorem documents_partition_the_chunks (w : World) :
  embedder_ok -> uuid_ok -> reachable w ->
  let s := self w in
  concat (map Document.chunk_ids (get_all_documents s))
    = seq 0 (length (chunks (metadata s))) /\
  (forall doc, doc ∈ get_all_documents s ->
     map Chunk.chunk_id (get_document_chunks s (Document.id doc))
     = Document.chunk_ids doc) /\
  (forall chunk, chunk ∈ chunks (metadata s) ->
     exists doc,
       get_document_by_id s (Chunk.document_id chunk) = Some doc /\
       Document.id doc = Chunk.document_id chunk /\
       Chunk.chunk_id chunk ∈ Document.chunk_ids doc).
Proof.
  intros Hemb Hinj Hreach s.
  destruct (reachable_catalogued w Hemb Hinj Hreach) as [Hnd Hcover Hown Hstored].
  split; [exact Hcover|]. split.
  { intros doc Hdoc. rewrite Forall_forall in Hown. by apply Hown. }
  intros chunk Hchunk. apply chunk_owner_lookup; [by split|exact Hchunk].
Qed.

(** X6. The three calls of [add_document] that can raise come before its
    first mutation, and an exception of any of them leaves the object and
    the files as before the call: the embedder's error when the embedder
    fails, [IndexError] of [faiss.normalize_L2] when the embedder returns a
    matrix of no rows, and the assertion error of [index.add] when some
    embedding does not have the dimension of the index.  (A write error of
    [_save], which comes after the mutation, is outside this model, where
    the files can always be written.) *)
Theorem add_document_raises_before_mutation
    (w w' : World) (document_text summary : string) (e : exn) :
  add_document w document_text summary = (Raise e, w') ->
  self w' = self w /\ disk w' = disk w /\
  (e = EmbedderError /\ encode (split_text document_text) = None \/
   e = IndexError /\ encode (split_text document_text) = Some [] \/
   e = AssertionError /\
   exists m, m <> [] /\ encode (split_text document_text) = Some m /\
     Exists (fun v => length (normalize_L2 v) <> IndexFlatL2.d (index (self w))) m).
Proof.
  intros Hrun.
  destruct (add_document_raise _ _ _ _ _ Hrun) as (Hself & Hdisk & _).
  split; [exact Hself|]. split; [exact Hdisk|].
  unfold add_document, _generate_embeddings in Hrun.
  destruct (encode (split_text document_text)) as [m|]; last first.
  { injection Hrun as <- _. by left. }
  right. destruct m as [|v0 m0].
  { injection Hrun as <- _. by left. }
  right. cbn [normalize_L2_matrix bind] in Hrun.
  set (m := v0 :: m0) in *. unfold IndexFlatL2.add in Hrun.
  destruct (forallb _ _) eqn:Hdim; [done|]. injection Hrun as <- _.
  split; [done|]. exists m. split; [done|]. split; [done|].
  apply Exists_exists.
  assert (Hex : existsb (fun v => negb (Nat.eqb (length v) (IndexFlatL2.d (index (self w)))))
                  (map normalize_L2 m) = true).
  { clear -Hdim. induction (map normalize_L2 m) as [|v l IH]; simpl in *; [done|].
    destruct (Nat.eqb _ _); simpl in *; [by apply IH|done]. }
  apply existsb_exists in Hex as (v' & Hin & Hv').
  apply in_map_iff in Hin as (v & <- & Hin).
  exists v. split; [by apply list_elem_of_In|].
  intros Heq. rewrite Heq, Nat.eqb_refl in Hv'. done.
Qed.

(** X7. In every reachable world the two files describe the object in memory:
    starting the process again never fails and gives the same corpus. *)
Theorem restart_recovers_the_corpus (w : World) :
  embedder_ok -> reachable w ->
  __init__ (disk w) = Ok (self w) /\
  (faiss_index_bin (disk w) = None ->
     documents (metadata (self w)) = [] /\ chunks (metadata (self w)) = []).
Proof.
  intros Hemb Hreach.
  pose proof (files_current w (reachable_consistent w Hemb Hreach)) as Hinit.
  split; [exact Hinit|]. intros Hnone.
  unfold __init__ in Hinit. rewrite Hnone in Hinit. by injection Hinit as <-.
Qed.

(** X8. What [get_statistics] reports: in every reachable world the chunk count
    is the number of rows of the index; a successful ingest adds one
    document and as many chunks as the splitter produced; an ingest that
    raises changes nothing. *)
Theorem get_statistics_counts (w w' : World) (document_text summary : string)
    (r : result string) :
  embedder_ok -> reachable w ->
  add_document w document_text summary = (r, w') ->
  let before_ := get_statistics (self w) in
  let after_ := get_statistics (self w') in
  Statistics.num_chunks before_ = IndexFlatL2.ntotal (index (self w)) /\
  Statistics.num_chunks after_ = IndexFlatL2.ntotal (index (self w')) /\
  match r with
  | Ok _ =>
      Statistics.num_documents after_ = S (Statistics.num_documents before_) /\
      Statistics.num_chunks after_
        = Statistics.num_chunks before_ + length (split_text document_text)
  | Raise _ => after_ = before_
  end.
Proof.
  intros Hemb Hreach Hrun. simpl.
  pose proof (reachable_consistent w Hemb Hreach) as Hw.
  assert (Hw' : consistent w').
  { eapply consistent_step; [exact Hemb|exact Hw|].
    replace w' with (snd (add_document w document_text summary)) by (by rewrite Hrun).
    constructor. }
  split; [by apply consistent_lengths|]. split; [by apply consistent_lengths|].
  destruct r as [doc_id|e].
  - apply add_document_ok in Hrun
      as (m & ix & Henc & Hadd & -> & Hcalls & Hix & Hch & Hdocs & Hdisk).
    rewrite Hdocs, Hch, !length_app. unfold chunk_records. rewrite length_imap.
    simpl. split; lia.
  - apply add_document_raise in Hrun as (-> & _ & _). done.
Qed.

End Corpus.

(** ** Further properties of the ranking *)

Section Ranking.

Context {E : Collaborators}.

(** A successful [search], read backwards. *)
Lemma search_ok_inv s query k hits :
  search s query k = Ok hits ->
  exists qv rest,
    encode [query] = Some (qv :: rest) /\
    hits = omap (hit_of_row (chunks (metadata s)))
             (IndexFlatL2.nearest (index s) (normalize_L2 qv) k).
Proof.
  intros Hrun.
  destruct (encode [query]) as [[|qv rest]|] eqn:Henc.
  - unfold search, _generate_embeddings in Hrun. by rewrite Henc in Hrun.
  - exists qv, rest. split; [done|].
    rewrite (search_unfold s query k qv rest Henc) in Hrun. by injection Hrun.
  - unfold search, _generate_embeddings in Hrun. by rewrite Henc in Hrun.
Qed.

Lemma hit_of_row_Some cs h hit :
  hit_of_row cs h = Some hit ->
  exists chunk,
    cs !! snd h = Some chunk /\
    hit = Hit.Build (Chunk.text chunk) (Chunk.document_id chunk) (score_of (fst h)).
Proof.
  unfold hit_of_row. destruct (cs !! snd h) as [chunk|]; [|done].
  intros [= <-]. by exists chunk.
Qed.

Lemma length_omap_le {A B} (f : A -> option B) (l : list A) :
  length (omap f l) <= length l.
Proof.
  induction l as [|x l IH]; [done|]. cbn [omap list_omap].
  destruct (f x); simpl; lia.
Qed.

Lemma length_omap_hits cs (found : list (Q * nat)) :
  length (omap (hit_of_row cs) found)
  = length (filter (fun h => snd h < length cs) found).
Proof.
  induction found as [|h found IH]; [done|].
  cbn [omap list_omap]. rewrite filter_cons. unfold hit_of_row at 1.
  destruct (cs !! snd h) as [chunk|] eqn:Hh.
  - apply lookup_lt_Some in Hh. rewrite decide_True by done. simpl. by rewrite IH.
  - apply lookup_ge_None in Hh. rewrite decide_False by lia. exact IH.
Qed.

Lemma omap_StronglySorted {A B} (R : relation A) (R' : relation B)
    (f : A -> option B) (l : list A) :
  (forall x y x' y', x ∈ l -> y ∈ l -> R x y ->
     f x = Some x' -> f y = Some y' -> R' x' y') ->
  StronglySorted R l -> StronglySorted R' (omap f l).
Proof.
  intros Hf Hl. induction Hl as [|a l Hl IH Ha]; [constructor|].
  cbn [omap list_omap].
  assert (IH' : StronglySorted R' (omap f l)).
  { apply IH. intros x y x' y' Hx Hy. apply Hf; by apply elem_of_cons; right. }
  destruct (f a) as [b|] eqn:Hfa; [|exact IH'].
  constructor; [exact IH'|].
  apply Forall_forall. intros y' Hy'.
  apply list_elem_of_omap in Hy' as (y & Hy & Hfy).
  rewrite Forall_forall in Ha.
  apply (Hf a y); auto; try (apply elem_of_cons; auto).
Qed.

Lemma score_of_antitone d1 d2 :
  (0 <= d1)%Q -> (d1 <= d2)%Q -> (score_of d2 <= score_of d1)%Q.
Proof.
  intros H1 H12. destruct (Qle_lt_or_eq _ _ H12) as [Hlt|Heq].
  - by apply Qlt_le_weak, score_of_decreasing.
  - unfold score_of. rewrite Heq. apply Qle_refl.
Qed.

Lemma score_of_le_1 dist : (0 <= dist)%Q -> (score_of dist <= 1)%Q.
Proof.
  intros Hd. change 1%Q with (score_of 0). by apply score_of_antitone.
Qed.

(** The closest row comes first. *)
Lemma nearest_head_minimal ix q k h rest r :
  IndexFlatL2.nearest ix q k = h :: rest ->
  r < IndexFlatL2.ntotal ix ->
  (fst h <= row_distance ix q r)%Q.
Proof.
  intros Hfound Hr.
  destruct (nearest_spec ix q k) as (_ & _ & _ & Hdist & Hout).
  destruct (decide (r ∈ map snd (IndexFlatL2.nearest ix q k))) as [Hin|Hnotin].
  - apply list_elem_of_lookup_1 in Hin as [j Hj].
    apply nearest_row_lookup in Hj. destruct j as [|j].
    + rewrite Hfound in Hj. injection Hj as ->. apply Qle_refl.
    + assert (H0 : IndexFlatL2.nearest ix q k !! 0 = Some h) by (by rewrite Hfound).
      by destruct (nearest_order _ _ _ 0 (S j) _ _ (Nat.lt_0_succ j) H0 Hj) as [Hle _].
  - assert (Hh : h ∈ IndexFlatL2.nearest ix q k) by (rewrite Hfound; apply list_elem_of_here).
    destruct (Hout h r Hh Hr Hnotin) as [Hlt|[Heq _]]; simpl in *.
    + by apply Qlt_le_weak.
    + rewrite Heq. apply Qle_refl.
Qed.

Lemma sqdist_self (v : vec) : (IndexFlatL2.sqdist v v == 0)%Q.
Proof.
  unfold IndexFlatL2.sqdist. induction v as [|a v IH]; simpl; [reflexivity|].
  rewrite IH. ring.
Qed.

(** X9. Whatever the state of the object, a successful [search] returns at most
    k hits, at most as many as the index has rows and at most as many as
    there are chunk records. *)
Theorem search_result_is_bounded
    (s : RAGSystem) (query : string) (k : nat) (hits : list Hit.t) :
  search s query k = Ok hits ->
  length hits <= k /\
  length hits <= IndexFlatL2.ntotal (index s) /\
  length hits <= length (chunks (metadata s)).
Proof.
  intros Hrun. apply search_ok_inv in Hrun as (qv & rest & _ & ->).
  destruct (nearest_spec (index s) (normalize_L2 qv) k) as (Hcount & _ & Hnodup & _).
  pose proof (length_omap_le (hit_of_row (chunks (metadata s)))
                (IndexFlatL2.nearest (index s) (normalize_L2 qv) k)) as Hle.
  split; [lia|]. split; [lia|].
  rewrite length_omap_hits.
  set (kept := filter _ _).
  assert (Hsub : kept `sublist_of` IndexFlatL2.nearest (index s) (normalize_L2 qv) k)
    by apply sublist_filter.
  assert (Hnd : NoDup (snd <$> kept)).
  { eapply sublist_NoDup; [exact Hnodup|]. by apply fmap_sublist. }
  rewrite <- (length_fmap snd kept), <- (length_seq (length (chunks (metadata s))) 0).
  apply submseteq_length, NoDup_submseteq; [exact Hnd|].
  intros r Hr. apply list_elem_of_fmap in Hr as (h & -> & Hh).
  apply list_elem_of_filter in Hh as [Hlt _]. apply elem_of_seq. lia.
Qed.

(** X10. Whatever the state of the object, the hits of a successful [search] come
    best first: scores never increase along the list, and every score lies
    in the interval (0, 1]. *)
Theorem search_scores_descend
    (s : RAGSystem) (query : string) (k : nat) (hits : list Hit.t) :
  search s query k = Ok hits ->
  StronglySorted (fun h1 h2 => (Hit.score h2 <= Hit.score h1)%Q) hits /\
  Forall (fun h => (0 < Hit.score h)%Q /\ (Hit.score h <= 1)%Q) hits.
Proof.
  intros Hrun. apply search_ok_inv in Hrun as (qv & rest & _ & ->).
  destruct (nearest_spec (index s) (normalize_L2 qv) k)
    as (_ & Hsorted & _ & Hdist & _).
  assert (Hpos : forall h, h ∈ IndexFlatL2.nearest (index s) (normalize_L2 qv) k ->
                   (0 <= fst h)%Q).
  { intros h Hh. rewrite Forall_forall in Hdist. destruct (Hdist h Hh) as [-> _].
    unfold row_distance. case_match; [apply sqdist_nonneg|apply Qle_refl]. }
  split.
  - eapply omap_StronglySorted; [|exact Hsorted].
    intros x y x' y' Hx Hy Hxy Hfx Hfy.
    apply hit_of_row_Some in Hfx as (cx & _ & ->).
    apply hit_of_row_Some in Hfy as (cy & _ & ->). simpl.
    apply score_of_antitone; [by apply Hpos|].
    destruct Hxy as [Hlt|[Heq _]]; [by apply Qlt_le_weak|].
    rewrite Heq. apply Qle_refl.
  - apply Forall_forall. intros hit Hhit.
    apply list_elem_of_omap in Hhit as (h & Hh & Hres).
    apply hit_of_row_Some in Hres as (c & _ & ->). simpl.
    split; [apply score_of_positive|apply score_of_le_1]; by apply Hpos.
Qed.

(** X11. In every reachable world each hit of [search] is the text of a stored
    chunk, its document_id is the id of a stored document that
    [get_document_by_id] returns, and that chunk is among the chunks
    [get_document_chunks] lists for the document. *)
Theorem search_hits_resolve
    (w : World) (query : string) (k : nat) (hits : list Hit.t) :
  embedder_ok -> uuid_ok -> reachable w ->
  search (self w) query k = Ok hits ->
  Forall (fun hit =>
    exists chunk doc,
      chunk ∈ get_document_chunks (self w) (Hit.document_id hit) /\
      Chunk.text chunk = Hit.text hit /\
      get_document_by_id (self w) (Hit.document_id hit) = Some doc /\
      Document.id doc = Hit.document_id hit /\
      Chunk.chunk_id chunk ∈ Document.chunk_ids doc) hits.
Proof.
  intros Hemb Hinj Hreach Hrun.
  apply search_ok_inv in Hrun as (qv & rest & _ & ->).
  apply Forall_forall. intros hit Hhit.
  apply list_elem_of_omap in Hhit as (h & Hh & Hres).
  apply hit_of_row_Some in Hres as (chunk & Hchunk & ->). simpl.
  apply list_elem_of_lookup_2 in Hchunk.
  destruct (chunk_owner_lookup (self w) chunk
              (reachable_catalogued w Hemb Hinj Hreach) Hchunk)
    as (doc & Hdoc & Hid & Hlisted).
  exists chunk, doc. repeat split; try done.
  unfold get_document_chunks. apply list_elem_of_filter. by split.
Qed.

(** X12. Self-similarity.  In every reachable world, when the normalized
    embedding of the query is one of the stored rows, [search] with k > 0
    returns a first hit whose score is 1. *)
Theorem search_self_similarity
    (w : World) (query : string) (k r : nat) (qv : vec) :
  embedder_ok -> reachable w -> 0 < k ->
  encode [query] = Some [qv] ->
  IndexFlatL2.xb (index (self w)) !! r = Some (normalize_L2 qv) ->
  exists hit hits,
    search (self w) query k = Ok (hit :: hits) /\
    (Hit.score hit == 1)%Q.
Proof.
  intros Hemb Hreach Hk Henc Hrow.
  pose proof (reachable_consistent w Hemb Hreach) as Hw.
  destruct (search_rows w query k qv [] Hw Henc) as (hits & Hrun & Hlen & Hhits).
  destruct (nearest_spec (index (self w)) (normalize_L2 qv) k)
    as (Hcount & _ & _ & Hdist & _).
  pose proof (lookup_lt_Some _ _ _ Hrow) as Hr.
  destruct (IndexFlatL2.nearest (index (self w)) (normalize_L2 qv) k)
    as [|h found] eqn:Hfound.
  { simpl in Hcount. unfold IndexFlatL2.ntotal in Hcount. lia. }
  simpl in Hhits. apply Forall2_cons_inv_l in Hhits as (hit & hits' & Hhit & _ & ->).
  exists hit, hits'. split; [exact Hrun|].
  destruct Hhit as (chunk & _ & ->). simpl.
  pose proof (nearest_head_minimal _ _ _ _ _ r Hfound Hr) as Hmin.
  apply Forall_cons in Hdist as [[Hd _] _]. rewrite Hd in Hmin.
  assert (Hzero : (row_distance (index (self w)) (normalize_L2 qv) r == 0)%Q).
  { unfold row_distance. rewrite Hrow. apply sqdist_self. }
  assert (Hnonneg : (0 <= row_distance (index (self w)) (normalize_L2 qv) (snd h))%Q).
  { unfold row_distance. case_match; [apply sqdist_nonneg|apply Qle_refl]. }
  rewrite Hzero in Hmin.
  assert (Heq : (row_distance (index (self w)) (normalize_L2 qv) (snd h) == 0)%Q)
    by (by apply Qle_antisym).
  unfold score_of. rewrite Heq. reflexivity.
Qed.

(** X13. Once a document with at least one chunk has been ingested, every later
    [search] with k > 0 whose query the embedder accepts returns at least
    one hit. *)
Theorem search_after_ingest_is_not_empty
    (w w1 w2 : World) (document_text summary doc_id query : string)
    (k : nat) (qv : vec) :
  embedder_ok -> reachable w ->
  add_document w document_text summary = (Ok doc_id, w1) ->
  split_text document_text <> [] ->
  rtc step w1 w2 ->
  0 < k ->
  encode [query] = Some [qv] ->
  exists hit hits, search (self w2) query k = Ok (hit :: hits).
Proof.
  intros Hemb Hreach Hrun Hsome Hlater Hk Henc.
  destruct (reachable_after _ _ _ _ _ _ Hreach Hrun Hlater) as [Hw1 Hw2].
  pose proof (reachable_consistent w2 Hemb Hw2) as Hc2.
  destruct (steps_extend w1 w2 Hemb (reachable_consistent w1 Hemb Hw1) Hlater)
    as (_ & Hprefix & _ & _).
  apply prefix_length in Hprefix.
  apply add_document_ok in Hrun
    as (m & ix & _ & _ & -> & _ & _ & Hch & _ & _).
  rewrite Hch, length_app in Hprefix. unfold chunk_records in Hprefix.
  rewrite length_imap in Hprefix.
  assert (Hn : 0 < length (split_text document_text)).
  { destruct (split_text document_text); [done|simpl; lia]. }
  rewrite (consistent_lengths w2 Hc2) in Hprefix.
  destruct (search_rows w2 query k qv [] Hc2 Henc) as (hits & Hsearch & Hlen & _).
  destruct (nearest_spec (index (self w2)) (normalize_L2 qv) k) as (Hcount & _).
  destruct hits as [|hit hits]; [simpl in Hlen; lia|].
  by exists hit, hits.
Qed.

End Ranking.

(** ** Facts about Python strings *)

Section PyFacts.

Import Py.

Lemma app_nil_str (s : string) : EmptyString +:+ s = s.
Proof. reflexivity. Qed.

Lemma app_cons_str (c : ascii) (a b : string) :
  String c a +:+ b = String c (a +:+ b).
Proof. reflexivity. Qed.

Ltac str_simpl := rewrite ?app_cons_str, ?app_nil_str; simpl.

Lemma prefix_app (p t : string) : String.prefix p (p +:+ t) = true.
Proof.
  induction p as [|c p IH]; str_simpl; [by destruct t|].
  destruct (ascii_dec c c); [exact IH|done].
Qed.

Lemma prefix_inv (p s : string) :
  String.prefix p s = true -> exists t, s = p +:+ t.
Proof.
  revert s. induction p as [|c p IH]; intros s Hp; [by exists s|].
  destruct s as [|c' s]; simpl in Hp; [done|].
  destruct (ascii_dec c c') as [<-|]; [|done].
  destruct (IH s Hp) as [t ->]. by exists t.
Qed.

Lemma app_assoc_str (a b c : string) : (a +:+ b) +:+ c = a +:+ (b +:+ c).
Proof. induction a as [|x a IH]; str_simpl; [done|by f_equal]. Qed.

Lemma length_app_str (a b : string) :
  String.length (a +:+ b) = String.length a + String.length b.
Proof. induction a as [|x a IH]; str_simpl; [done|by f_equal]. Qed.

(** Where [find] answers, the needle occurs. *)
Lemma find_Some (hay needle : string) (i : nat) :
  find hay needle = Some i ->
  exists a b, hay = a +:+ needle +:+ b /\ String.length a = i.
Proof.
  revert i. induction hay as [|c hay IH]; intros i; cbn [find].
  - destruct (String.prefix needle EmptyString) eqn:Hp; [|done].
    intros [= <-]. apply prefix_inv in Hp as [t Ht]. by exists EmptyString, t.
  - destruct (String.prefix needle (String c hay)) eqn:Hp.
    + intros [= <-]. apply prefix_inv in Hp as [t Ht]. by exists EmptyString, t.
    + destruct (find hay needle) as [j|]; cbn [option_map]; [|done].
      intros [= <-]. destruct (IH j eq_refl) as (a & b & -> & <-).
      by exists (String c a), b.
Qed.

Lemma find_prefix (hay needle : string) :
  String.prefix needle hay = true -> find hay needle = Some 0.
Proof. intros Hp. destruct hay; cbn [find]; by rewrite Hp. Qed.

(** An occurrence is found. *)
Lemma contains_app (a needle b : string) : contains (a +:+ needle +:+ b) needle = true.
Proof.
  unfold contains. induction a as [|c a IH]; rewrite ?app_cons_str, ?app_nil_str.
  - by rewrite (find_prefix _ _ (prefix_app needle b)).
  - cbn [find]. destruct (String.prefix needle _); [done|].
    destruct (find (a +:+ needle +:+ b) needle); [done|done].
Qed.

Lemma contains_spec (hay needle : string) :
  contains hay needle = true <-> exists a b, hay = a +:+ needle +:+ b.
Proof.
  split.
  - unfold contains. destruct (find hay needle) as [i|] eqn:Hi; [|done].
    intros _. destruct (find_Some _ _ _ Hi) as (a & b & -> & _). by exists a, b.
  - intros (a & b & ->). apply contains_app.
Qed.

(** A text keeps what it contains when text is put around it. *)
Lemma contains_embed (a hay b needle : string) :
  contains hay needle = true -> contains (a +:+ hay +:+ b) needle = true.
Proof.
  intros Hc. apply contains_spec in Hc as (x & y & ->).
  apply contains_spec. exists (a +:+ x), (y +:+ b).
  by rewrite !app_assoc_str.
Qed.

(** The first occurrence of a character that the text before it lacks. *)
Lemma find_char_app (c : ascii) (a b : string) :
  contains a (String c EmptyString) = false ->
  find (a +:+ String c b) (String c EmptyString) = Some (String.length a).
Proof.
  unfold contains. induction a as [|x a IH]; str_simpl.
  - intros _. destruct (ascii_dec c c); [|done]. by destruct b.
  - destruct (ascii_dec c x) as [<-|Hne].
    { by destruct a. }
    destruct (find a (String c EmptyString)) as [i|] eqn:Hi; [done|].
    intros _. by rewrite (IH eq_refl).
Qed.

Lemma slice_from_app (a b : string) : slice_from (String.length a) (a +:+ b) = b.
Proof. induction a as [|x a IH]; str_simpl; [done|exact IH]. Qed.

Lemma slice_to_app (a b : string) : slice_to (String.length a) (a +:+ b) = a.
Proof.
  induction a as [|x a IH]; str_simpl; [by destruct b|]. by f_equal.
Qed.

Lemma lower_app (a b : string) : lower (a +:+ b) = lower a +:+ lower b.
Proof.
  induction a as [|x a IH]; str_simpl; [done|]. rewrite app_cons_str. by f_equal.
Qed.

Lemma lower_char_idemp (c : ascii) : lower_char (lower_char c) = lower_char c.
Proof. destruct c as [[] [] [] [] [] [] [] []]; reflexivity. Qed.

Lemma isspace_lower_char (c : ascii) : isspace (lower_char c) = isspace c.
Proof. destruct c as [[] [] [] [] [] [] [] []]; reflexivity. Qed.

Lemma lower_idemp (s : string) : lower (lower s) = lower s.
Proof.
  induction s as [|c s IH]; simpl; [done|]. by rewrite lower_char_idemp, IH.
Qed.

Lemma lower_slice_from (n : nat) (s : string) :
  lower (slice_from n s) = slice_from n (lower s).
Proof.
  revert s. induction n as [|n IH]; intros [|c s]; simpl; done.
Qed.

Lemma lower_lstrip (s : string) : lower (lstrip s) = lstrip (lower s).
Proof.
  induction s as [|c s IH]; simpl; [done|].
  rewrite isspace_lower_char. by destruct (isspace c).
Qed.

Lemma lower_rstrip (s : string) : lower (rstrip s) = rstrip (lower s).
Proof.
  induction s as [|c s IH]; simpl; [done|].
  rewrite <- IH, isspace_lower_char.
  destruct (rstrip s); simpl; [by destruct (isspace c)|done].
Qed.

Lemma lower_strip (s : string) : lower (strip s) = strip (lower s).
Proof. unfold strip. by rewrite lower_rstrip, lower_lstrip. Qed.

Lemma lstrip_clean (s : string) : starts_clean (lstrip s).
Proof.
  induction s as [|c s IH]; simpl; [done|].
  destruct (isspace c) eqn:Hc; [exact IH|exact Hc].
Qed.

Lemma lstrip_of_clean (s : string) : starts_clean s -> lstrip s = s.
Proof. destruct s as [|c s]; simpl; [done|]. by intros ->. Qed.

Lemma rstrip_clean (s : string) : starts_clean s -> starts_clean (rstrip s).
Proof.
  destruct s as [|c s]; simpl; [done|]. intros Hc.
  destruct (rstrip s); simpl; [by rewrite Hc|done].
Qed.

Lemma rstrip_idemp (s : string) : rstrip (rstrip s) = rstrip s.
Proof.
  induction s as [|c s IH]; simpl; [done|].
  destruct (rstrip s) as [|c' r] eqn:Hr.
  - destruct (isspace c) eqn:Hc; simpl; [done|by rewrite Hc].
  - simpl in *. by rewrite IH.
Qed.

Lemma strip_idemp (s : string) : strip (strip s) = strip s.
Proof.
  unfold strip.
  rewrite (lstrip_of_clean (rstrip (lstrip s))) by apply rstrip_clean, lstrip_clean.
  apply rstrip_idemp.
Qed.

Lemma first_some_Some {A B} (f : A -> option B) (l : list A) (y : B) :
  first_some f l = Some y -> exists x, x ∈ l /\ f x = Some y.
Proof.
  induction l as [|x l IH]; simpl; [done|].
  destruct (f x) as [y'|] eqn:Hx.
  - intros [= <-]. exists x. split; [apply list_elem_of_here|done].
  - intros Hl. destruct (IH Hl) as (x' & Hin & Hx'). exists x'.
    split; [by apply list_elem_of_further|done].
Qed.

Lemma first_some_None {A B} (f : A -> option B) (l : list A) :
  first_some f l = None <-> Forall (fun x => f x = None) l.
Proof.
  induction l as [|x l IH]; simpl; [by split; [constructor|]|].
  destruct (f x) eqn:Hx.
  - split; [done|]. intros Hall. apply Forall_cons in Hall as [Hx' _]. congruence.
  - rewrite IH. split; [by constructor|]. intros Hall. by apply Forall_cons in Hall as [_ ?].
Qed.

End PyFacts.

(** ** Properties of the request parser, the relevance filter and the
    context builder *)

Section Requests.

Import Py.

Lemma slice_past_char (c : ascii) (a b : string) :
  slice_from (String.length a + 1) (a +:+ String c b) = b.
Proof.
  induction a as [|x a IH]; rewrite ?app_cons_str, ?app_nil_str; simpl; [done|exact IH].
Qed.

(** X15. A document put in square brackets is extracted, stripped of its outer
    white space, whatever else the request holds: the text before it must
    have no opening bracket and the document no closing bracket. *)
Theorem extract_bracketed_document (pre doc post : string) :
  contains pre "[" = false ->
  contains doc "]" = false ->
  extract_document_from_query (pre +:+ "[" +:+ doc +:+ "]" +:+ post)
  = Some (strip doc).
Proof.
  intros Hpre Hdoc. unfold extract_document_from_query, delimiters.
  cbn [first_some fst snd]. unfold search_between.
  change ("[" +:+ doc +:+ "]" +:+ post) with (String "["%char (doc +:+ "]" +:+ post)).
  rewrite (find_char_app "["%char pre _ Hpre).
  change (String.length "[") with 1. rewrite slice_past_char.
  change ("]" +:+ post) with (String "]"%char post).
  rewrite (find_char_app "]"%char doc _ Hdoc).
  by rewrite slice_to_app.
Qed.

Lemma after_phrase_stripped query phrase document :
  after_phrase query phrase = Some document ->
  strip document = document /\ lower document = document.
Proof.
  unfold after_phrase. destruct (find (lower query) phrase) as [i|]; [|done].
  intros [= <-]. split; [apply strip_idemp|].
  by rewrite lower_strip, lower_slice_from, lower_idemp.
Qed.

Lemma after_command_stripped query cmd document :
  after_command query cmd = Some document -> strip document = document.
Proof.
  unfold after_command. destruct (find (lower query) cmd) as [i|]; [|done].
  destruct (first_some _ _); intros [= <-]; apply strip_idemp.
Qed.

(** X16. Whatever [extract_document_from_query] extracts has no white space at
    either end. *)
Theorem extracted_document_is_stripped (query document : string) :
  extract_document_from_query query = Some document ->
  strip document = document.
Proof.
  unfold extract_document_from_query.
  destruct (first_some _ delimiters) as [group|].
  { intros [= <-]. apply strip_idemp. }
  destruct (first_some (after_phrase query) phrases) as [d|] eqn:Hphrase.
  { intros [= <-]. apply first_some_Some in Hphrase as (phrase & _ & Hd).
    by apply after_phrase_stripped in Hd as [? _]. }
  destruct (500 <? String.length query); [|done].
  intros Hcmd. apply first_some_Some in Hcmd as (cmd & _ & Hd).
  by apply after_command_stripped in Hd.
Qed.

(** X17. When no pair of delimiters encloses a text in the request and one of
    the trigger phrases occurs in it (in any capitalisation), a document is
    extracted and it is cut from the lower-cased request: the capital
    letters of the document are lost. *)
Theorem document_after_phrase_is_lower_case (query : string) :
  Forall (fun d => search_between (fst d) (snd d) query = None) delimiters ->
  existsb (contains (lower query)) phrases = true ->
  exists document,
    extract_document_from_query query = Some document /\
    lower document = document.
Proof.
  intros Hnone Hphrase. unfold extract_document_from_query.
  rewrite (proj2 (first_some_None _ _) Hnone).
  destruct (first_some (after_phrase query) phrases) as [d|] eqn:Hd.
  - exists d. split; [done|].
    apply first_some_Some in Hd as (phrase & _ & Hd).
    by apply after_phrase_stripped in Hd as [_ ?].
  - apply first_some_None in Hd.
    apply existsb_exists in Hphrase as (phrase & Hin & Hc).
    apply list_elem_of_In in Hin. rewrite Forall_forall in Hd.
    specialize (Hd phrase Hin). unfold after_phrase, contains in *.
    by destruct (find (lower query) phrase).
Qed.

(** X18. A request is an ingest request exactly when, lower-cased, it contains
    one of the trigger wordings; otherwise it is a question, and
    [parse_user_query] then extracts no document. *)
Theorem detect_query_type_spec (query : string) :
  (detect_query_type query = "ingest" <->
     exists pattern trigger a b,
       pattern ∈ ingest_patterns /\ trigger ∈ pattern /\
       lower query = a +:+ trigger +:+ b) /\
  (detect_query_type query <> "ingest" ->
     parse_user_query query = ("question", None)).
Proof.
  unfold parse_user_query, detect_query_type.
  destruct (existsb _ ingest_patterns) eqn:Hex.
  - split; [|done]. split; [|done]. intros _.
    apply existsb_exists in Hex as (pattern & Hp & Hex).
    apply existsb_exists in Hex as (trigger & Ht & Hc).
    apply contains_spec in Hc as (a & b & Hq).
    exists pattern, trigger, a, b.
    apply list_elem_of_In in Hp. apply list_elem_of_In in Ht. done.
  - split; [|done]. split; [done|].
    intros (pattern & trigger & a & b & Hp & Ht & Hq).
    assert (Htrue : existsb (fun pattern => search_any pattern (lower query))
                      ingest_patterns = true).
    { apply existsb_exists. exists pattern. split; [by apply list_elem_of_In|].
      apply existsb_exists. exists trigger. split; [by apply list_elem_of_In|].
      rewrite Hq. apply contains_app. }
    congruence.
Qed.

Lemma existsb_embed (a text b : string) (words : list string) :
  existsb (contains text) words = true ->
  existsb (contains (a +:+ text +:+ b)) words = true.
Proof.
  intros Hex. apply existsb_exists in Hex as (word & Hin & Hc).
  apply existsb_exists. exists word. split; [done|]. by apply contains_embed.
Qed.

Lemma length_filter_mono {A} (f g : A -> bool) (l : list A) :
  (forall x, f x = true -> g x = true) ->
  length (List.filter f l) <= length (List.filter g l).
Proof.
  intros Hfg. induction l as [|x l IH]; simpl; [done|].
  destruct (f x) eqn:Hf.
  - rewrite (Hfg x Hf). simpl. lia.
  - destruct (g x); simpl; lia.
Qed.

(** X19. Relevance only grows with the text: a document that contains a relevant
    text is relevant; and a text that names neither 2025 nor 2026 is not
    relevant, whatever its keywords. *)
Theorem relevance_is_monotone (a text b : string) :
  (is_relevant_document text = true ->
   is_relevant_document (a +:+ text +:+ b) = true) /\
  (existsb (contains text) TARGET_YEARS = false ->
   is_relevant_document text = false).
Proof.
  unfold is_relevant_document. split; [|by intros ->].
  destruct (existsb (contains text) TARGET_YEARS) eqn:Hyear; cbn [negb]; [|done].
  rewrite (existsb_embed a text b _ Hyear). cbn [negb].
  intros Hcount. apply Nat.leb_le in Hcount. apply Nat.leb_le.
  etrans; [exact Hcount|]. unfold keyword_count.
  apply length_filter_mono. intros keyword Hk.
  rewrite !lower_app. by apply contains_embed.
Qed.

(** X20. [is_tour_query] ignores capitalisation and only grows with the text. *)
Theorem is_tour_query_is_monotone (a query b : string) :
  is_tour_query (lower query) = is_tour_query query /\
  (is_tour_query query = true -> is_tour_query (a +:+ query +:+ b) = true).
Proof.
  unfold is_tour_query. split; [by rewrite lower_idemp|].
  rewrite !lower_app. apply existsb_embed.
Qed.

End Requests.

(** ** The context handed to the language model *)

Section Context.

Context {E : Collaborators}.

Lemma app_nil_r_str (s : string) : s +:+ EmptyString = s.
Proof. induction s as [|c s IH]; [done|]. rewrite app_cons_str. by f_equal. Qed.

Lemma concat_head (sep x : string) (l : list string) :
  exists rest, String.concat sep (x :: l) = x +:+ rest.
Proof.
  destruct l as [|y l]; simpl.
  - exists EmptyString. by rewrite app_nil_r_str.
  - by eexists.
Qed.

(** X14. In every reachable world, for a query the embedder accepts,
    [_get_context] answers "No relevant information found." exactly when
    the corpus has no chunk; otherwise the context starts with the excerpt
    numbered 1, which is the text of the best hit of [search] with k = 6. *)
Theorem get_context_of_corpus (w : World) (query : string) (qv : vec) :
  embedder_ok -> reachable w ->
  encode [query] = Some [qv] ->
  (chunks (metadata (self w)) = [] ->
     _get_context (self w) query = Ok "No relevant information found.") /\
  (chunks (metadata (self w)) <> [] ->
     exists hit hits rest,
       search (self w) query 6 = Ok (hit :: hits) /\
       length hits < 6 /\
       _get_context (self w) query
         = Ok ("[Excerpt 1]: " +:+ Hit.text hit +:+ rest) /\
       _get_context (self w) query <> Ok "No relevant information found.").
Proof.
  intros Hemb Hreach Henc.
  pose proof (reachable_consistent w Hemb Hreach) as Hw.
  destruct (search_rows w query 6 qv [] Hw Henc) as (hits & Hrun & Hlen & _).
  destruct (nearest_spec (index (self w)) (normalize_L2 qv) 6) as (Hcount & _).
  rewrite Hcount, <- (consistent_lengths w Hw) in Hlen.
  unfold _get_context. rewrite Hrun. cbn [bind]. split.
  - intros Hnone. rewrite Hnone in Hlen.
    destruct hits as [|hit hits]; [done|]. cbn [length] in Hlen. lia.
  - intros Hsome. destruct hits as [|hit hits].
    { destruct (chunks (metadata (self w))); [done|cbn [length] in Hlen; lia]. }
    exists hit, hits. cbn [imap].
    destruct (concat_head (newline +:+ newline)
                ("[Excerpt " +:+ pretty (0 + 1) +:+ "]: " +:+ Hit.text hit)
                (imap ((fun i result =>
                          "[Excerpt " +:+ pretty (i + 1) +:+ "]: " +:+ Hit.text result) ∘ S)
                      hits)) as [rest Hrest].
    exists rest. split; [done|]. split; [cbn [length] in Hlen; lia|].
    rewrite Hrest. split; [|discriminate].
    f_equal.
Qed.

End Context.

(** ** The environment file *)

Section EnvFile.

Import Py.

(** [find] of a character answers its first occurrence. *)
Lemma find_char_first (c : ascii) (hay : string) (i : nat) :
  find hay (String c EmptyString) = Some i ->
  exists a b,
    hay = a +:+ String c b /\ String.length a = i /\
    contains a (String c EmptyString) = false.
Proof.
  revert i. induction hay as [|x hay IH]; intros i; cbn [find]; [done|].
  simpl. destruct (ascii_dec c x) as [<-|Hne].
  - destruct hay as [|y hay']; intros [= <-];
      [by exists EmptyString, EmptyString|by exists EmptyString, (String y hay')].
  - destruct (find hay (String c EmptyString)) as [j|] eqn:Hj; [|done].
    intros [= <-]. destruct (IH j eq_refl) as (a & b & -> & <- & Ha).
    exists (String x a), b. split; [done|]. split; [done|].
    unfold contains in *. cbn [find]. simpl.
    destruct (ascii_dec c x); [done|].
    by destruct (find a (String c EmptyString)).
Qed.

Lemma read_env_line_None env_vars line :
  read_env_line env_vars line = None <-> malformed line.
Proof.
  unfold read_env_line, malformed, contains.
  destruct (String.eqb (strip line) EmptyString) eqn:Hblank; simpl.
  - apply String.eqb_eq in Hblank. split; [done|]. by intros [? _].
  - apply String.eqb_neq in Hblank.
    destruct (String.prefix "#" line) eqn:Hcomment; simpl.
    + split; [done|]. by intros (_ & ? & _).
    + destruct (find (strip line) "="); split; try done. by intros (_ & _ & ?).
Qed.

Lemma read_env_lines_None env_vars lines :
  read_env_lines env_vars lines = None <-> Exists malformed lines.
Proof.
  revert env_vars. induction lines as [|line lines IH]; intros env_vars; simpl.
  - split; [done|]. by intros ?%Exists_nil.
  - rewrite Exists_cons. destruct (read_env_line env_vars line) as [env_vars'|] eqn:Hline.
    + rewrite IH. split; [by right|]. intros [Hbad|?]; [|done].
      apply (read_env_line_None env_vars) in Hbad. congruence.
    + split; [|done]. intros _. left. by apply (read_env_line_None env_vars).
Qed.

Lemma read_env_line_Some env_vars line env_vars' key value :
  read_env_line env_vars line = Some env_vars' ->
  env_vars' !! key = Some value ->
  env_vars !! key = Some value \/ assigned_by [line] key value.
Proof.
  unfold read_env_line.
  destruct (negb _ && negb _).
  - destruct (find (strip line) "=") as [i|] eqn:Hi; [|done].
    intros [= <-]. apply find_char_first in Hi as (a & b & Heq & <- & Ha).
    rewrite Heq, slice_to_app, slice_past_char.
    destruct (decide (a = key)) as [->|Hne].
    + rewrite lookup_insert_eq. intros [= <-]. right.
      exists line. split; [apply list_elem_of_here|]. by split.
    + rewrite lookup_insert_ne by done. by left.
  - intros [= <-]. by left.
Qed.

Lemma read_env_lines_Some env_vars lines env_vars' key value :
  read_env_lines env_vars lines = Some env_vars' ->
  env_vars' !! key = Some value ->
  env_vars !! key = Some value \/ assigned_by lines key value.
Proof.
  revert env_vars. induction lines as [|line lines IH]; intros env_vars; simpl.
  - intros [= <-]. by left.
  - destruct (read_env_line env_vars line) as [env1|] eqn:Hline; [|done].
    intros Hrest Hkey. destruct (IH env1 Hrest Hkey) as [Hin|(l & Hl & Heq)].
    + destruct (read_env_line_Some _ _ _ _ _ Hline Hin) as [?|(l & Hl & Heq)]; [by left|].
      right. exists l. apply list_elem_of_singleton in Hl as ->.
      split; [apply list_elem_of_here|done].
    + right. exists l. split; [by apply list_elem_of_further|done].
Qed.

(** X21. [load_env_variables] raises exactly when the .env file has a line that
    is not blank, does not start with the comment sign and has no equals
    sign; without a .env file it never raises. *)
Theorem load_env_variables_raises (dotenv : option (list string))
    (environ : gmap string string) :
  load_env_variables dotenv environ = ValueError <->
  exists lines, dotenv = Some lines /\ Exists malformed lines.
Proof.
  unfold load_env_variables.
  destruct (read_env_lines ∅ (default [] dotenv)) as [env_vars|] eqn:Hread.
  - split; [done|]. intros (lines & -> & Hbad). simpl in Hread.
    apply (read_env_lines_None ∅) in Hbad. congruence.
  - split; [|done]. intros _. destruct dotenv as [lines|]; [|done].
    exists lines. split; [done|]. by apply (read_env_lines_None ∅).
Qed.

(** X22. In the dictionary [load_env_variables] returns, the variables of the
    process environment win over the file; every other entry is assigned by
    a line of the file, its key being the stripped line up to the first
    equals sign and its value all the rest; without a file the dictionary
    is the process environment. *)
Theorem load_env_variables_entries (dotenv : option (list string))
    (environ env_vars : gmap string string) :
  load_env_variables dotenv environ = EnvVars env_vars ->
  (forall key value, environ !! key = Some value -> env_vars !! key = Some value) /\
  (forall key value, env_vars !! key = Some value ->
     environ !! key = Some value \/
     assigned_by (default [] dotenv) key value) /\
  (dotenv = None -> env_vars = environ).
Proof.
  unfold load_env_variables.
  destruct (read_env_lines ∅ (default [] dotenv)) as [file_vars|] eqn:Hread; [|done].
  intros [= <-]. split; [|split].
  - intros key value Hkey. by apply lookup_union_Some_l.
  - intros key value Hkey.
    apply lookup_union_Some_raw in Hkey as [Henv|[_ Hfile]]; [by left|].
    destruct (read_env_lines_Some _ _ _ _ _ Hread Hfile) as [Hempty|Hline]; [|by right].
    by rewrite lookup_empty in Hempty.
  - intros ->. simpl in Hread. injection Hread as <-. apply (right_id_L ∅ (∪)).
Qed.

End EnvFile.

(** ** The command processor *)

Section CommandLine.

Context {E : Collaborators} {F : Frontend}.

Lemma world_eta (w : World) : mkWorld (calls w) (disk w) (self w) = w.
Proof. by destruct w. Qed.

(** The fields of a success response. *)
Lemma success_response clock message doc_id summary :
  let response :=
    format_response clock "success" message
      (Some (<["summary" := summary]> (<["document_id" := doc_id]> ∅))) in
  response !! "type" = Some "success" /\
  response !! "message" = Some message /\
  response !! "timestamp" = Some clock /\
  response !! "document_id" = Some doc_id /\
  response !! "summary" = Some summary.
Proof.
  unfold format_response.
  rewrite decide_False by apply insert_non_empty.
  cbv zeta. split; [|split; [|split; [|split]]].
  - rewrite lookup_union_r by (by simplify_map_eq). by simplify_map_eq.
  - rewrite lookup_union_r by (by simplify_map_eq). by simplify_map_eq.
  - rewrite lookup_union_r by (by simplify_map_eq). by simplify_map_eq.
  - apply lookup_union_Some_l. by simplify_map_eq.
  - apply lookup_union_Some_l. by simplify_map_eq.
Qed.

(** The chunks and the record of an ingest, right after it. *)
Lemma ingested_now w document_text summary doc_id w1 :
  uuid_ok -> consistent w ->
  add_document w document_text summary = (Ok doc_id, w1) ->
  map Chunk.text (get_document_chunks (self w1) doc_id) = split_text document_text /\
  exists doc,
    get_document_by_id (self w1) doc_id = Some doc /\
    Document.id doc = doc_id /\ Document.summary doc = summary.
Proof.
  intros Hinj Hw Hrun.
  apply add_document_ok in Hrun
    as (m & ix & Henc & Hadd & -> & Hcalls & Hix & Hch & Hdocs & Hdisk).
  split.
  - unfold get_document_chunks. rewrite Hch, filter_app.
    rewrite filter_owner_none by (apply consistent_not_owner; done).
    rewrite filter_owner_all by apply chunk_records_owner.
    unfold chunk_records. simpl.
    change (map Chunk.text) with (fmap (M:=list) Chunk.text).
    rewrite fmap_imap. rewrite (imap_ext _ (const id)) by done.
    by rewrite imap_const, list_fmap_id.
  - exists (Document.Build (uuid4 (calls w)) summary (now (calls w))
              (seq (length (chunks (metadata (self w))))
                   (length (split_text document_text)))).
    split; [|done].
    unfold get_document_by_id. rewrite Hdocs.
    rewrite list_find_app_r.
    + simpl. by rewrite decide_True.
    + apply list_find_None.
      exact (consistent_not_document w (calls w) Hinj Hw (Nat.le_refl _)).
Qed.

(** X23. A command changes the corpus only when it is answered with a success
    response: after an error response, an answer or an exception the files
    and the corpus in memory are as before.  The world a command leaves is
    reachable again. *)
Theorem process_command_changes_corpus_only_on_success
    (clock : string) (w w' : World) (command : string) (out : outcome) :
  embedder_ok -> reachable w ->
  process_command clock w command = (out, w') ->
  reachable w' /\
  ((exists response doc_id,
      out = Response response /\
      response !! "type" = Some "success" /\
      response !! "document_id" = Some doc_id /\
      is_Some (get_document_by_id (self w') doc_id))
   \/ (disk w' = disk w /\ self w' = self w /\
       forall response, out = Response response ->
         response !! "type" = Some "error" \/ response !! "type" = Some "answer")).
Proof.
  intros Hemb Hreach.
  pose proof (reachable_consistent w Hemb Hreach) as Hw.
  pose proof (files_current w Hw) as Hinit.
  unfold process_command.
  destruct (parse_user_query command) as [query_type document_content].
  rewrite Hinit, world_eta.
  assert (Herror : forall message response,
            Response (format_response clock "error" message None) = Response response ->
            response !! "type" = Some "error" \/ response !! "type" = Some "answer").
  { intros message response [= <-]. left. unfold format_response. by simplify_map_eq. }
  destruct (String.eqb query_type "ingest").
  - destruct document_content as [[|c content]|].
    + intros [= <- <-]. split; [done|]. right. eauto.
    + destruct (process_document (String c content)) as [summary|].
      * destruct (add_document w (String c content) summary) as [[doc_id|e] w1] eqn:Hrun.
        -- intros [= <- <-]. split.
           { replace w1 with (snd (add_document w (String c content) summary))
               by (by rewrite Hrun). by apply reachable_ingest. }
           left. eexists _, doc_id. split; [done|].
           destruct (success_response clock
                       "Thank you for sharing! Your document has been successfully added to the database."
                       doc_id summary) as (Htype & _ & _ & Hid & _).
           split; [exact Htype|]. split; [exact Hid|].
           apply add_document_ok in Hrun
             as (m & ix & Henc & Hadd & -> & Hcalls & Hix & Hch & Hdocs & Hdisk).
           destruct (get_document_by_id (self w1) (uuid4 (calls w))) as [doc|] eqn:Hget;
             [done|].
           apply get_document_by_id_None in Hget. rewrite Hdocs in Hget.
           apply Forall_app in Hget as [_ Hget]. by apply Forall_cons in Hget as [? _].
        -- intros [= <- <-]. split.
           { replace w1 with (snd (add_document w (String c content) summary))
               by (by rewrite Hrun). by apply reachable_ingest. }
           right. apply add_document_raise in Hrun as (-> & -> & _). done.
      * intros [= <- <-]. split; [done|]. right. eauto.
    + intros [= <- <-]. split; [done|]. right. eauto.
  - destruct chat_model_error as [text|]; intros [= <- <-]; (split; [done|]); right.
    + done.
    + repeat split. intros response [= <-]. right.
      unfold format_response. by simplify_map_eq.
Qed.

(** X24. An ingest command whose document is found relevant and which the engine
    accepts is answered with a success response that carries the new id and
    the summary; the document is then stored under that id with that
    summary, and its chunks are the chunks of the extracted text. *)
Theorem process_command_ingests
    (clock : string) (w w1 : World) (command content doc_id : string) :
  embedder_ok -> uuid_ok -> reachable w ->
  parse_user_query command = ("ingest", Some content) ->
  content <> EmptyString ->
  is_relevant_document content = true ->
  add_document w content (summarize_document content) = (Ok doc_id, w1) ->
  exists response,
    process_command clock w command = (Response response, w1) /\
    response !! "type" = Some "success" /\
    response !! "document_id" = Some doc_id /\
    response !! "summary" = Some (summarize_document content) /\
    response !! "timestamp" = Some clock /\
    map Chunk.text (get_document_chunks (self w1) doc_id) = split_text content /\
    exists doc,
      get_document_by_id (self w1) doc_id = Some doc /\
      Document.summary doc = summarize_document content.
Proof.
  intros Hemb Hinj Hreach Hparse Hcontent Hrelevant Hrun.
  pose proof (reachable_consistent w Hemb Hreach) as Hw.
  eexists. split.
  { unfold process_command. rewrite Hparse. cbn [String.eqb].
    change (String.eqb "ingest" "ingest") with true. cbn iota.
    destruct content as [|c content]; [done|].
    unfold process_document. rewrite Hrelevant. cbn [negb].
    rewrite (files_current w Hw), world_eta, Hrun. reflexivity. }
  destruct (success_response clock
              "Thank you for sharing! Your document has been successfully added to the database."
              doc_id (summarize_document content)) as (Htype & _ & Htime & Hid & Hsum).
  destruct (ingested_now w content _ doc_id w1 Hinj Hw Hrun)
    as (Htexts & doc & Hdoc & _ & Hsummary).
  repeat split; try done. by exists doc.
Qed.

End CommandLine.

(** ** The further properties run on concrete collaborators *)

Lemma demo_later : rtc (@step demo) demo_world1 demo_world2.
Proof. apply rtc_once. exact (@step_ingest demo demo_world1 "Berlin" "Artist: BTS"). Qed.

Lemma demo_first_ingest :
  @add_document demo (@boot demo) "London" "Artist: Adele" = (Ok "#", demo_world1).
Proof. reflexivity. Qed.

Lemma demo_search :
  @search demo (self demo_world2) "Madrid" 1 = Ok [Hit.Build "London" "#" 1%Q].
Proof. reflexivity. Qed.

Lemma corpus_is_append_only_witness :
  rtc (@step demo) demo_world1 demo_world2 /\
  get_all_documents (self demo_world1) `prefix_of` get_all_documents (self demo_world2).
Proof.
  split; [exact demo_later|].
  exact (proj1 (proj2 (@corpus_is_append_only demo demo_world1 demo_world2
                         demo_embedder_ok demo_world1_reachable demo_later))).
Defined.

Lemma get_document_by_id_of_ingested_witness :
  @add_document demo (@boot demo) "London" "Artist: Adele" = (Ok "#", demo_world1) /\
  get_document_by_id (self demo_world2) "#"
  = Some (Document.Build "#" "Artist: Adele" "2025-01-01T00:00:0#" [0]).
Proof.
  split; [exact demo_first_ingest|].
  exact (@get_document_by_id_of_ingested demo (@boot demo) demo_world1 demo_world2
           "London" "Artist: Adele" "#"
           demo_embedder_ok demo_uuid_ok (@reachable_boot demo) demo_first_ingest demo_later).
Defined.

Lemma document_ids_are_unique_witness :
  @reachable demo demo_world2 /\
  NoDup (map Document.id (get_all_documents (self demo_world2))).
Proof.
  split; [exact demo_world2_reachable|].
  exact (proj1 (@document_ids_are_unique demo demo_world2
                  demo_embedder_ok demo_uuid_ok demo_world2_reachable)).
Defined.

Lemma documents_partition_the_chunks_witness :
  @reachable demo demo_world2 /\
  concat (map Document.chunk_ids (get_all_documents (self demo_world2)))
  = seq 0 (length (chunks (metadata (self demo_world2)))).
Proof.
  split; [exact demo_world2_reachable|].
  exact (proj1 (@documents_partition_the_chunks demo demo_world2
                  demo_embedder_ok demo_uuid_ok demo_world2_reachable)).
Defined.

Lemma add_document_raises_before_mutation_witness :
  @add_document demo demo_world2 EmptyString "nothing"
  = (Raise IndexError, mkWorld 3 (disk demo_world2) (self demo_world2)) /\
  self (mkWorld 3 (disk demo_world2) (self demo_world2)) = self demo_world2.
Proof.
  split; [reflexivity|].
  exact (proj1 (@add_document_raises_before_mutation demo demo_world2
                  (mkWorld 3 (disk demo_world2) (self demo_world2))
                  EmptyString "nothing" IndexError eq_refl)).
Defined.

Lemma restart_recovers_the_corpus_witness :
  @reachable demo demo_world2 /\
  @__init__ demo (disk demo_world2) = Ok (self demo_world2).
Proof.
  split; [exact demo_world2_reachable|].
  exact (proj1 (@restart_recovers_the_corpus demo demo_world2
                  demo_embedder_ok demo_world2_reachable)).
Defined.

Lemma get_statistics_counts_witness :
  @add_document demo (@boot demo) "London" "Artist: Adele" = (Ok "#", demo_world1) /\
  Statistics.num_chunks (@get_statistics demo (self demo_world1))
  = IndexFlatL2.ntotal (index (self demo_world1)).
Proof.
  split; [exact demo_first_ingest|].
  exact (proj1 (proj2 (@get_statistics_counts demo (@boot demo) demo_world1
                         "London" "Artist: Adele" (Ok "#")
                         demo_embedder_ok (@reachable_boot demo) demo_first_ingest))).
Defined.

Lemma search_result_is_bounded_witness :
  @search demo (self demo_world2) "Madrid" 1 = Ok [Hit.Build "London" "#" 1%Q] /\
  length [Hit.Build "London" "#" 1%Q] <= 1.
Proof.
  split; [exact demo_search|].
  exact (proj1 (@search_result_is_bounded demo (self demo_world2) "Madrid" 1 _ demo_search)).
Defined.

Lemma search_scores_descend_witness :
  @search demo (self demo_world2) "Madrid" 1 = Ok [Hit.Build "London" "#" 1%Q] /\
  Forall (fun h => (0 < Hit.score h)%Q /\ (Hit.score h <= 1)%Q)
         [Hit.Build "London" "#" 1%Q].
Proof.
  split; [exact demo_search|].
  exact (proj2 (@search_scores_descend demo (self demo_world2) "Madrid" 1 _ demo_search)).
Defined.

Lemma search_hits_resolve_witness :
  @search demo (self demo_world2) "Madrid" 1 = Ok [Hit.Build "London" "#" 1%Q] /\
  exists doc, get_document_by_id (self demo_world2) "#" = Some doc.
Proof.
  split; [exact demo_search|].
  pose proof (@search_hits_resolve demo demo_world2 "Madrid" 1 _
                demo_embedder_ok demo_uuid_ok demo_world2_reachable demo_search) as Hall.
  apply Forall_cons in Hall as [(chunk & doc & _ & _ & Hdoc & _) _].
  exists doc. exact Hdoc.
Defined.

Lemma search_self_similarity_witness :
  IndexFlatL2.xb (index (self demo_world2)) !! 0 = Some [6%Q; 1%Q] /\
  exists hit hits,
    @search demo (self demo_world2) "Madrid" 2 = Ok (hit :: hits) /\
    (Hit.score hit == 1)%Q.
Proof.
  split; [reflexivity|].
  exact (@search_self_similarity demo demo_world2 "Madrid" 2 0 [6%Q; 1%Q]
           demo_embedder_ok demo_world2_reachable (Nat.lt_0_succ 1) eq_refl eq_refl).
Defined.

Lemma search_after_ingest_is_not_empty_witness :
  @split_text demo "London" <> [] /\
  exists hit hits, @search demo (self demo_world2) "Madrid" 1 = Ok (hit :: hits).
Proof.
  assert (Hsome : @split_text demo "London" <> []) by discriminate.
  split; [exact Hsome|].
  exact (@search_after_ingest_is_not_empty demo (@boot demo) demo_world1 demo_world2
           "London" "Artist: Adele" "#" "Madrid" 1 [6%Q; 1%Q]
           demo_embedder_ok (@reachable_boot demo) demo_first_ingest Hsome demo_later
           (Nat.lt_0_succ 0) eq_refl).
Defined.

Lemma get_context_of_corpus_witness :
  @encode demo ["Madrid"] = Some [[6%Q; 1%Q]] /\
  @_get_context demo (self (@boot demo)) "Madrid" = Ok "No relevant information found.".
Proof.
  split; [reflexivity|].
  exact (proj1 (@get_context_of_corpus demo (@boot demo) "Madrid" [6%Q; 1%Q]
                  demo_embedder_ok (@reachable_boot demo) eq_refl) eq_refl).
Defined.

Lemma extract_bracketed_document_witness :
  Py.contains "Please add this document: " "[" = false /\
  Py.contains " Adele 2025 " "]" = false /\
  extract_document_from_query ("Please add this document: " +:+ "[" +:+ " Adele 2025 " +:+ "]" +:+ "!")
  = Some "Adele 2025".
Proof.
  split; [reflexivity|]. split; [reflexivity|].
  exact (extract_bracketed_document "Please add this document: " " Adele 2025 " "!"
           eq_refl eq_refl).
Defined.

Lemma extracted_document_is_stripped_witness :
  extract_document_from_query demo_command = Some demo_content /\
  Py.strip demo_content = demo_content.
Proof.
  split; [reflexivity|].
  exact (extracted_document_is_stripped demo_command demo_content eq_refl).
Defined.

Lemma document_after_phrase_is_lower_case_witness :
  existsb (Py.contains (Py.lower "Here's the document: This is another test document."))
          phrases = true /\
  exists document,
    extract_document_from_query "Here's the document: This is another test document."
    = Some document /\
    Py.lower document = document.
Proof.
  split; [reflexivity|].
  apply document_after_phrase_is_lower_case; [|reflexivity].
  repeat constructor.
Defined.

Lemma load_env_variables_entries_witness :
  load_env_variables (Some ["KEY=from file"; "# a comment"; "OTHER=x=y"])
                     (<["KEY" := "from environment"]> ∅)
  = EnvVars (<["KEY" := "from environment"]> ∅
             ∪ <["OTHER" := "x=y"]> (<["KEY" := "from file"]> ∅)) /\
  (<["KEY" := "from environment"]> ∅
   ∪ <["OTHER" := "x=y"]> (<["KEY" := "from file"]> ∅) : gmap string string)
  !! "KEY" = Some "from environment".
Proof.
  split; [reflexivity|].
  refine (proj1 (load_env_variables_entries
                   (Some ["KEY=from file"; "# a comment"; "OTHER=x=y"])
                   (<["KEY" := "from environment"]> ∅) _ eq_refl) "KEY" _ _).
  apply lookup_insert_eq.
Defined.

Lemma process_command_changes_corpus_only_on_success_witness :
  @reachable demo demo_world2 /\
  disk (snd (@process_command demo demo_frontend "2025-01-01 00:00:00"
               demo_world2 demo_question))
  = disk demo_world2.
Proof.
  split; [exact demo_world2_reachable|].
  destruct (@process_command_changes_corpus_only_on_success demo demo_frontend
              "2025-01-01 00:00:00" demo_world2
              (snd (@process_command demo demo_frontend "2025-01-01 00:00:00"
                      demo_world2 demo_question))
              demo_question
              (fst (@process_command demo demo_frontend "2025-01-01 00:00:00"
                      demo_world2 demo_question))
              demo_embedder_ok demo_world2_reachable (surjective_pairing _))
    as [_ [(response & doc_id & Hout & Htype & _)|(Hdisk & _)]]; [|exact Hdisk].
  exfalso.
  change (fst (@process_command demo demo_frontend "2025-01-01 00:00:00"
                 demo_world2 demo_question))
    with (Response (format_response "2025-01-01 00:00:00" "answer"
                      (@answer_query demo demo_frontend (self demo_world2) demo_question)
                      None)) in Hout.
  injection Hout as <-. unfold format_response in Htype. by simplify_map_eq.
Defined.

Lemma process_command_ingests_witness :
  parse_user_query demo_command = ("ingest", Some demo_content) /\
  is_relevant_document demo_content = true /\
  exists response,
    fst (@process_command demo demo_frontend "2025-01-01 00:00:00" (@boot demo) demo_command)
    = Response response /\
    response !! "document_id" = Some "#".
Proof.
  split; [reflexivity|]. split; [reflexivity|].
  assert (Hne : demo_content <> EmptyString) by discriminate.
  destruct (@process_command_ingests demo demo_frontend "2025-01-01 00:00:00"
              (@boot demo)
              (snd (@add_document demo (@boot demo) demo_content "Artist: Adele"))
              demo_command demo_content "#"
              demo_embedder_ok demo_uuid_ok (@reachable_boot demo)
              eq_refl Hne eq_refl eq_refl)
    as (response & Hrun & _ & Hid & _).
  exists response. split; [by rewrite Hrun|exact Hid].
Defined.

(** The two requests of the repository's test of [parse_user_query]. *)
Example parse_user_query_ingest_example :
  parse_user_query
    "Please add this document to your database: [Concert info for Taylor Swift]"
  = ("ingest", Some "Concert info for Taylor Swift").
Proof. reflexivity. Qed.

Example parse_user_query_question_example :
  parse_user_query "When is BTS performing in London?" = ("question", None).
Proof. reflexivity. Qed.

(** The second request of the repository's test of
    [extract_document_from_query]: the document comes back lower-cased. *)
Example extract_after_phrase_example :
  extract_document_from_query "Here's the document: This is another test document."
  = Some "this is another test document.".
Proof. reflexivity. Qed.
